(** * RFID laundry locker server: card detector, read cache, assignment and pickup

    Shallow embedding of [laundry_locker_api.py] (class [RFIDLockerSystem]
    and the [/api/drop-off] route) together with the properties of the
    detector loop, the card queue and the locker/transaction state machine.

    Conventions of the embedding.
    - Instants ([datetime.now()], [time.time()]) are integers counting
      microseconds; [datetime] has microsecond resolution, so the comparison
      [(now - t).total_seconds() < 2.0] is [now - t < 2_000_000].
    - Python strings are [string]; [str.lower] and [str.strip] are modelled on
      the ASCII range (other characters are left as they are).
    - A Python [dict] keyed by strings is an association list in insertion
      order, because the case-insensitive scans of the program stop at the
      first key in that order.
    - Every source of non-determinism (clock readings, the uuid4 generator,
      the outcome of the file write, of the HTTP post, of the hardware poll)
      is an explicit argument. *)

From Stdlib Require Import ZArith List String Ascii Bool Lia QArith Qminmax DecimalString.
Import ListNotations.
Open Scope string_scope.
Open Scope list_scope.
Open Scope Z_scope.

(* ================================================================== *)
(** ** Python primitives used by the program *)

(** Number of microseconds in [n] seconds. *)
Definition seconds (n : Z) : Z := n * 1000000.

(** Number of microseconds in [n] minutes ([timedelta(minutes=n)]). *)
Definition minutes (n : Z) : Z := n * 60000000.

Definition is_upper (c : ascii) : bool :=
  let n := N_of_ascii c in ((65 <=? n) && (n <=? 90))%N.

Definition lower_ascii (c : ascii) : ascii :=
  if is_upper c then ascii_of_N (N_of_ascii c + 32) else c.

(** [str.lower()]. *)
Fixpoint lower (s : string) : string :=
  match s with
  | EmptyString => EmptyString
  | String c s' => String (lower_ascii c) (lower s')
  end.

(** [str.isspace()] on one character: TAB..CR, FS..US and the blank. *)
Definition isspace (c : ascii) : bool :=
  let n := N_of_ascii c in
  (((9 <=? n) && (n <=? 13)) || ((28 <=? n) && (n <=? 32)))%N.

Fixpoint lstrip (s : string) : string :=
  match s with
  | EmptyString => EmptyString
  | String c s' => if isspace c then lstrip s' else s
  end.

Fixpoint rstrip (s : string) : string :=
  match s with
  | EmptyString => EmptyString
  | String c s' =>
      match rstrip s' with
      | EmptyString => if isspace c then EmptyString else String c EmptyString
      | r => String c r
      end
  end.

(** [str.strip()]. *)
Definition strip (s : string) : string := rstrip (lstrip s).

(** A stripped-left string is empty or starts with a visible character. *)
Definition head_clean (s : string) : Prop :=
  match s with
  | EmptyString => True
  | String c _ => isspace c = false
  end.

(** [' ' in s]. *)
Fixpoint has_space (s : string) : bool :=
  match s with
  | EmptyString => false
  | String c s' => Ascii.eqb c " " || has_space s'
  end.

(** [str(n)] for an integer. *)
Definition str_of_int (n : Z) : string := NilZero.string_of_int (Z.to_int n).

(** [x in l] for a list of strings. *)
Definition mem (x : string) (l : list string) : bool :=
  existsb (String.eqb x) l.

(** [l.remove(x)]: drops the first occurrence only. *)
Fixpoint remove_first (x : string) (l : list string) : list string :=
  match l with
  | [] => []
  | y :: l' => if String.eqb y x then l' else y :: remove_first x l'
  end.

(** [if x not in l: l.append(x)]. *)
Definition append_if_absent (x : string) (l : list string) : list string :=
  if mem x l then l else l ++ [x].

(** *** Dictionaries with string keys, in insertion order *)

Section Dict.
Context {V : Type}.

Definition dict := list (string * V).

Definition keys (d : dict) : list string := map fst d.

(** [d.get(k)] *)
Fixpoint dict_get (k : string) (d : dict) : option V :=
  match d with
  | [] => None
  | (k', v) :: d' => if String.eqb k' k then Some v else dict_get k d'
  end.

(** [k in d] *)
Definition dict_mem (k : string) (d : dict) : bool := mem k (keys d).

(** [d[k] = v]: an existing key keeps its place, a new key goes last. *)
Fixpoint dict_set (k : string) (v : V) (d : dict) : dict :=
  match d with
  | [] => [(k, v)]
  | (k', v') :: d' =>
      if String.eqb k' k then (k', v) :: d' else (k', v') :: dict_set k v d'
  end.

(** [del d[k]] *)
Definition dict_del (k : string) (d : dict) : dict :=
  filter (fun p => negb (String.eqb (fst p) k)) d.

(** First entry, in iteration order, whose key equals [k] up to case:
    the loops [for key in d.keys(): if str(key).lower() == k.lower()]. *)
Definition find_ci (k : string) (d : dict) : option (string * V) :=
  find (fun p => String.eqb (lower (fst p)) (lower k)) d.
End Dict.
Arguments dict V : clear implicits.

(* ================================================================== *)
(** ** Configuration *)

Record Config := mkConfig {
  relay_pins : dict Z;                  (* locker id -> BCM pin *)
  unlock_duration : Z;                  (* seconds *)
  card_validity_window : option Z       (* seconds; absent key -> 30 *)
}.

(** [DEFAULT_CONFIG] (the fields the modelled code reads). *)
Definition DEFAULT_CONFIG : Config :=
  {| relay_pins := [("1", 17); ("2", 27)];
     unlock_duration := 5;
     card_validity_window := Some 30 |}.

(** [self.config.get('card_validity_window', 30)] *)
Definition validity_window (cfg : Config) : Z :=
  match card_validity_window cfg with Some w => w | None => 30 end.

(* ================================================================== *)
(** ** Card queue ([self.card_queue]) *)

Module CardRead.
Record t := mk { card_id : string; timestamp : Z; read_count : Z }.
End CardRead.

(** The two nested tests of the duplicate loop (lines 295-301): same card
    id, and [seconds_diff < 2.0]. *)
Definition recent_duplicate (now : Z) (cid : string) (e : CardRead.t) : bool :=
  String.eqb (CardRead.card_id e) cid
  && (now - CardRead.timestamp e <? seconds 2).

(** The [for existing_card in self.card_queue] loop of [rfid_reader_loop]
    (lines 293-305): the first entry with the same card id that is less than
    two seconds old gets the current time as its timestamp, and the loop
    stops.  [None] stands for [is_duplicate = False]. *)
Fixpoint refresh_duplicate (now : Z) (cid : string) (q : list CardRead.t)
  : option (list CardRead.t) :=
  match q with
  | [] => None
  | e :: q' =>
      if recent_duplicate now cid e
      then Some (CardRead.mk (CardRead.card_id e) now (CardRead.read_count e) :: q')
      else option_map (cons e) (refresh_duplicate now cid q')
  end.

(** Body of [with self.card_read_lock:] in [rfid_reader_loop]
    (lines 287-317). *)
Definition enqueue_card (now : Z) (cid : string) (q : list CardRead.t)
  : list CardRead.t :=
  let q1 :=
    match refresh_duplicate now cid q with
    | Some q' => q'
    | None => q ++ [CardRead.mk cid now 1]
    end in
  if (10 <? Z.of_nat (List.length q1)) then tl q1 else q1.

(** The test of the first loop of [get_last_card]. *)
Definition multi_read_recent (window now : Z) (c : CardRead.t) : bool :=
  (1 <? CardRead.read_count c) && (now - CardRead.timestamp c <=? seconds window).

Definition recent (window now : Z) (c : CardRead.t) : bool :=
  now - CardRead.timestamp c <=? seconds window.

(** [get_last_card] (lines 364-400); [q] is the queue, oldest entry first. *)
Definition get_last_card (cfg : Config) (now : Z) (q : list CardRead.t)
  : option CardRead.t :=
  match rev q with
  | [] => None
  | newest :: _ =>
      match find (multi_read_recent (validity_window cfg) now) (rev q) with
      | Some card => Some card
      | None =>
          if recent (validity_window cfg) now newest then Some newest else None
      end
  end.

(** [clear_card_queue] *)
Definition clear_card_queue (q : list CardRead.t) : list CardRead.t := [].

(* ================================================================== *)
(** ** Detector loop ([rfid_reader_loop]) *)

(** What [self.reader.read_no_block()] does in one iteration. *)
Inductive Poll :=
| PollCard (id : Z)      (* a card id was returned *)
| PollNone               (* [(None, None)]: no card in the field *)
| PollError.             (* an exception was raised *)

(** What [self.initialize_rfid()] does when it is called. *)
Inductive Reinit :=
| ReinitOk               (* returned True *)
| ReinitFailed           (* caught its own exception, returned False *)
| ReinitRaised.          (* an exception escaped to the caller *)

(** The environment of one iteration. *)
Record Tick := mkTick {
  poll : Poll;
  tick_now : Z;           (* datetime.now() in the locked block *)
  tick_time1 : Z;         (* time.time() stored in self.last_successful_read *)
  tick_time2 : Z;         (* time.time() stored in the local variable *)
  reinit : Reinit;
  tick_init_time : Z      (* time.time() inside a successful initialize_rfid *)
}.

(** Observable actions of one iteration. *)
Inductive Action :=
| ASleep (secs : Q)
| AReinitialize (outcome : Reinit).

(** Local variables of the loop and the fields of [self] it writes.
    [read_interval] is a rational here; the program holds it in a float. *)
Record Detector := mkDetector {
  consecutive_errors : Z;
  loop_last_successful_read : Z;
  read_interval : Q;
  card_queue : list CardRead.t;
  last_successful_read : option Z;
  rfid_errors : Z;
  rfid_reads_attempted : Z;
  rfid_reads_successful : Z;
  last_rfid_init : option Z
}.

(** State at the first iteration of [rfid_reader_loop], started at [t0]. *)
Definition detector_start (t0 : Z) : Detector :=
  {| consecutive_errors := 0;
     loop_last_successful_read := t0;
     read_interval := 0.1;
     card_queue := [];
     last_successful_read := None;
     rfid_errors := 0;
     rfid_reads_attempted := 0;
     rfid_reads_successful := 0;
     last_rfid_init := None |}.

(** The recovery block of the handler (lines 353-360). *)
Definition recovery_actions (o : Reinit) : list Action :=
  match o with
  | ReinitRaised => [AReinitialize o]
  | _ => [AReinitialize o; ASleep 2]
  end.

(** One iteration of [while True] (lines 273-362). *)
Definition rfid_reader_loop_step (tk : Tick) (s : Detector)
  : Detector * list Action :=
  let current_interval :=
    (read_interval s * inject_Z (1 + Z.min (consecutive_errors s) 5))%Q in
  let attempted := rfid_reads_attempted s + 1 in
  match poll tk with
  | PollCard id =>
      ({| consecutive_errors := 0;
          loop_last_successful_read := tick_time2 tk;
          read_interval := 0.05;
          card_queue := enqueue_card (tick_now tk) (str_of_int id) (card_queue s);
          last_successful_read := Some (tick_time1 tk);
          rfid_errors := rfid_errors s;
          rfid_reads_attempted := attempted;
          rfid_reads_successful := rfid_reads_successful s + 1;
          last_rfid_init := last_rfid_init s |},
       [ASleep current_interval])
  | PollNone =>
      ({| consecutive_errors := consecutive_errors s;
          loop_last_successful_read := loop_last_successful_read s;
          read_interval := Qmin (read_interval s * 1.1) 0.1;
          card_queue := card_queue s;
          last_successful_read := last_successful_read s;
          rfid_errors := rfid_errors s;
          rfid_reads_attempted := attempted;
          rfid_reads_successful := rfid_reads_successful s;
          last_rfid_init := last_rfid_init s |},
       [ASleep current_interval])
  | PollError =>
      let ce := consecutive_errors s + 1 in
      let recovering := (negb (ce <? 20)) && (ce mod 20 =? 0) in
      ({| consecutive_errors := ce;
          loop_last_successful_read := loop_last_successful_read s;
          read_interval := read_interval s;
          card_queue := card_queue s;
          last_successful_read := last_successful_read s;
          rfid_errors := rfid_errors s + 1;
          rfid_reads_attempted := attempted;
          rfid_reads_successful := rfid_reads_successful s;
          last_rfid_init :=
            match recovering, reinit tk with
            | true, ReinitOk => Some (tick_init_time tk)
            | _, _ => last_rfid_init s
            end |},
       if ce <? 5 then [ASleep 0.5]
       else if ce <? 20 then [ASleep 1]
       else (if ce mod 20 =? 0 then recovery_actions (reinit tk) else [])
            ++ [ASleep 2])
  end.

(** The loop over a finite prefix of its environment: the final state and
    the actions of each iteration, in order. *)
Fixpoint rfid_reader_loop (ticks : list Tick) (s : Detector)
  : Detector * list (list Action) :=
  match ticks with
  | [] => (s, [])
  | tk :: rest =>
      let '(s1, acts) := rfid_reader_loop_step tk s in
      let '(s2, trace) := rfid_reader_loop rest s1 in
      (s2, acts :: trace)
  end.

(** Does an iteration call [initialize_rfid]? *)
Definition reinitializes (acts : list Action) : bool :=
  existsb (fun a => match a with AReinitialize _ => true | _ => false end) acts.

(* ================================================================== *)
(** ** Lockers, assignments and transactions ([self.data]) *)

(** A wash-type identifier as JSON delivers it: a number or a string.
    Python's [==] never equates a number with a string. *)
Inductive wt_id :=
| IdInt (z : Z)
| IdStr (s : string).

Definition wt_id_eqb (a b : wt_id) : bool :=
  match a, b with
  | IdInt x, IdInt y => x =? y
  | IdStr x, IdStr y => String.eqb x y
  | _, _ => false
  end.

(** Truth value of an identifier ([if not wash_type_id]). *)
Definition wt_id_truthy (i : wt_id) : bool :=
  match i with
  | IdInt z => negb (z =? 0)
  | IdStr s => negb (String.eqb s "")
  end.

Module WashType.
Record t := mk {
  id : wt_id;
  name : string;
  price : Q;
  estimated_time : option Z      (* minutes, when the key is present *)
}.
End WashType.

Inductive Status := pending | processing | completed.

Definition is_completed (s : Status) : bool :=
  match s with completed => true | _ => false end.

Module Transaction.
Record t := mk {
  transaction_id : string;
  card_id : string;
  locker_id : string;
  wash_type : option WashType.t;
  status : Status;
  drop_off_time : Z;
  pickup_time : option Z;
  estimated_completion_time : option Z;
  device_info : list (string * string)
}.
End Transaction.

(** A value of [active_cards]. *)
Module Assignment.
Record t := mk { locker_id : string; transaction_id : string }.
End Assignment.

Record Data := mkData {
  active_cards : dict Assignment.t;
  transactions : list Transaction.t;
  available_lockers : list string
}.

(** Relay outputs and the hold between them, in the order they happen. *)
Inductive Gpio :=
| GpioOutput (pin : Z) (high : bool)
| Hold (secs : Z).

(** The system: [self.data], the content of the database file ([None]
    when the file holds no complete document), the actuator trace and the
    requests the telemetry server acknowledged. *)
Record System := mkSystem {
  data : Data;
  disk : option Data;
  gpio : list Gpio;
  outbox : list (string * Transaction.t)
}.

Definition with_data (s : System) (d : Data) : System :=
  {| data := d; disk := disk s; gpio := gpio s; outbox := outbox s |}.

Inductive SaveOutcome :=
| SaveOk
| SaveOpenFails          (* open(DB_FILE, 'w') raised: the file is untouched *)
| SaveWriteFails.        (* json.dump raised after the file was truncated *)

(** The environment of one request. *)
Record Env := mkEnv {
  uuid4 : string;                      (* str(uuid.uuid4()) *)
  now1 : Z;                            (* first datetime.now() *)
  now2 : Z;                            (* second datetime.now() *)
  get_wash_types : list WashType.t;    (* what self.get_wash_types() returns *)
  save_outcome : SaveOutcome;
  send_outcome : bool                  (* does send_to_server return True *)
}.

(** [LockerTransaction.__init__] as [assign_card_to_locker] calls it. *)
Definition LockerTransaction (env : Env) (card_id locker_id : string)
  (wash_type : option WashType.t) : Transaction.t :=
  {| Transaction.transaction_id := uuid4 env;
     Transaction.card_id := card_id;
     Transaction.locker_id := locker_id;
     Transaction.wash_type := wash_type;
     Transaction.status := pending;
     Transaction.drop_off_time := now1 env;
     Transaction.pickup_time := None;
     Transaction.estimated_completion_time :=
       match wash_type with
       | Some wt =>
           match WashType.estimated_time wt with
           | Some m => Some (now2 env + minutes m)
           | None => None
           end
       | None => None
       end;
     Transaction.device_info := [] |}.

(** [save_data]: the exception of a failed write is caught and logged. *)
Definition save_data (o : SaveOutcome) (s : System) : System :=
  {| data := data s;
     disk := match o with
             | SaveOk => Some (data s)
             | SaveOpenFails => disk s
             | SaveWriteFails => None
             end;
     gpio := gpio s;
     outbox := outbox s |}.

(** [send_to_server]: every failure is caught and turned into [False]. *)
Definition send_to_server (ok : bool) (action : string) (payload : Transaction.t)
  (s : System) : System * bool :=
  ({| data := data s;
      disk := disk s;
      gpio := gpio s;
      outbox := if ok then outbox s ++ [(action, payload)] else outbox s |},
   ok).

(** [unlock_locker] (lines 242-263). *)
Definition unlock_locker (cfg : Config) (locker_id : string) (s : System)
  : System * bool :=
  match dict_get locker_id (relay_pins cfg) with
  | None => (s, false)
  | Some relay_pin =>
      ({| data := data s;
          disk := disk s;
          gpio := gpio s ++ [GpioOutput relay_pin false;
                             Hold (unlock_duration cfg);
                             GpioOutput relay_pin true];
          outbox := outbox s |},
       true)
  end.

(** [check_card_already_assigned] (lines 466-489). *)
Definition check_card_already_assigned (d : Data) (card_id : string) : bool :=
  let card_id_str := strip card_id in
  if dict_mem card_id_str (active_cards d) then true
  else
    let card_id_lower := lower card_id_str in
    if existsb (fun active_card => String.eqb (lower active_card) card_id_lower)
               (keys (active_cards d))
    then true
    else
      existsb (fun transaction =>
                 negb (is_completed (Transaction.status transaction))
                 && String.eqb (lower (strip (Transaction.card_id transaction)))
                               card_id_lower)
              (transactions d).

(** [assign_card_to_locker] (lines 408-464).  The [except] branch of the
    method is not part of the model: with records of the shapes above
    no statement of the body raises ([save_data] and [send_to_server]
    catch their own exceptions). *)
Definition assign_card_to_locker (env : Env) (s : System)
  (card_id locker_id : string) (wash_type_id : wt_id)
  : System * (bool * string) :=
  let card_id := strip card_id in
  if check_card_already_assigned (data s) card_id then
    (s, (false, "Card already assigned to another locker"))
  else if negb (mem locker_id (available_lockers (data s))) then
    (s, (false, "Locker not available"))
  else
    match find (fun wt => wt_id_eqb (WashType.id wt) wash_type_id)
               (get_wash_types env) with
    | None => (s, (false, "Invalid wash type"))
    | Some selected_wash_type =>
        let transaction :=
          LockerTransaction env card_id locker_id (Some selected_wash_type) in
        let d := data s in
        let d1 :=
          {| active_cards :=
               dict_set card_id
                 (Assignment.mk locker_id (Transaction.transaction_id transaction))
                 (active_cards d);
             transactions := transactions d ++ [transaction];
             available_lockers :=
               if mem locker_id (available_lockers d)
               then remove_first locker_id (available_lockers d)
               else available_lockers d |} in
        let s1 := save_data (save_outcome env) (with_data s d1) in
        let s2 := fst (send_to_server (send_outcome env) "new_transaction"
                                      transaction s1) in
        (s2, (true,
              ("Card assigned to locker " ++ locker_id ++ " with "
               ++ WashType.name selected_wash_type ++ " service")%string))
    end.

(** The [wash_type] field of a drop-off request: an object with an id, a
    number, or a string. *)
Inductive WashParam :=
| WPDict (id : wt_id)
| WPInt (z : Z)
| WPStr (s : string).

Record Request := mkRequest {
  req_card_id : option string;
  req_wash_type : option WashParam
}.

Record Response := mkResponse {
  success : bool;
  message : string;
  resp_locker_id : option string
}.

Definition failure (msg : string) : Response :=
  {| success := false; message := msg; resp_locker_id := None |}.

(** Resolution of the request's wash type in [drop_off] (lines 959-980);
    [catalog] is what the route's own call of [get_wash_types] returned. *)
Definition resolve_wash_type (catalog : list WashType.t) (p : WashParam)
  : string + wt_id :=
  match p with
  | WPDict i => inr i
  | WPInt z => inr (IdInt z)
  | WPStr s =>
      if negb (has_space s) then inr (IdStr s)
      else
        match find (fun wt => String.eqb (WashType.name wt) s) catalog with
        | Some wt =>
            if wt_id_truthy (WashType.id wt) then inr (WashType.id wt)
            else inl ("Invalid wash type: " ++ s)%string
        | None => inl ("Invalid wash type: " ++ s)%string
        end
  end.

(** The [/api/drop-off] route (lines 923-1000). *)
Definition drop_off (cfg : Config) (env : Env) (catalog : list WashType.t)
  (s : System) (req : Request) : System * Response :=
  match req_card_id req, req_wash_type req with
  | Some raw_card_id, Some wash_type_param =>
      let card_id := strip raw_card_id in
      if check_card_already_assigned (data s) card_id then
        let locker_id :=
          match find_ci card_id (active_cards (data s)) with
          | Some (_, info) => Assignment.locker_id info
          | None => "unknown"
          end in
        (s, failure ("This card already has clothes in locker " ++ locker_id
                     ++ ". Please use the pickup process first.")%string)
      else
        match available_lockers (data s) with
        | [] => (s, failure "No lockers available")
        | locker_id :: _ =>
            match resolve_wash_type catalog wash_type_param with
            | inl msg => (s, failure msg)
            | inr wash_type_id =>
                let '(s1, (ok, msg)) :=
                  assign_card_to_locker env s raw_card_id locker_id wash_type_id in
                if ok then
                  ((fst (unlock_locker cfg locker_id s1)),
                   {| success := true; message := msg;
                      resp_locker_id := Some locker_id |})
                else (s1, failure msg)
            end
        end
  | _, _ => (s, failure "Missing required fields")
  end.

(** [status = "completed"; pickup_time = now] on one record. *)
Definition mark_completed (now : Z) (t : Transaction.t) : Transaction.t :=
  {| Transaction.transaction_id := Transaction.transaction_id t;
     Transaction.card_id := Transaction.card_id t;
     Transaction.locker_id := Transaction.locker_id t;
     Transaction.wash_type := Transaction.wash_type t;
     Transaction.status := completed;
     Transaction.drop_off_time := Transaction.drop_off_time t;
     Transaction.pickup_time := Some now;
     Transaction.estimated_completion_time :=
       Transaction.estimated_completion_time t;
     Transaction.device_info := Transaction.device_info t |}.

(** The loops [for i, trans in enumerate(self.data["transactions"])] of
    [process_pickup]: the first record that passes [p] is completed in
    place; the result is that record and the updated list. *)
Fixpoint complete_first (p : Transaction.t -> bool) (now : Z)
  (ts : list Transaction.t) : option (Transaction.t * list Transaction.t) :=
  match ts with
  | [] => None
  | t :: ts' =>
      if p t then Some (mark_completed now t, mark_completed now t :: ts')
      else
        match complete_first p now ts' with
        | Some (u, r) => Some (u, t :: r)
        | None => None
        end
  end.

(** Resolution of the presented card against [active_cards]
    (lines 500-518): the key itself, else the first key equal up to case. *)
Definition resolve_active (card_id_str : string) (ac : dict Assignment.t)
  : option (string * Assignment.t) :=
  match dict_get card_id_str ac with
  | Some info => Some (card_id_str, info)
  | None => find_ci card_id_str ac
  end.

(** Removal of the assignment and release of the locker, then [save_data]:
    the common tail of the three successful paths of [process_pickup]. *)
Definition release (o : SaveOutcome) (card_id_str locker_id : string)
  (s : System) : System :=
  let d := data s in
  save_data o
    (with_data s
       {| active_cards := dict_del card_id_str (active_cards d);
          transactions := transactions d;
          available_lockers := append_if_absent locker_id (available_lockers d) |}).

Definition with_transactions (s : System) (ts : list Transaction.t) : System :=
  with_data s {| active_cards := active_cards (data s);
                 transactions := ts;
                 available_lockers := available_lockers (data s) |}.

(** [process_pickup] (lines 491-619). *)
Definition process_pickup (cfg : Config) (env : Env) (s : System)
  (card_id : string) : System * (bool * string) :=
  match resolve_active card_id (active_cards (data s)) with
  | None => (s, (false, "Card not associated with any locker"))
  | Some (card_id_str, locker_info) =>
      let locker_id := Assignment.locker_id locker_info in
      let transaction_id := Assignment.transaction_id locker_info in
      match complete_first
              (fun trans =>
                 String.eqb (Transaction.transaction_id trans) transaction_id)
              (now1 env) (transactions (data s)) with
      | Some (trans, ts) =>
          let s1 := with_transactions s ts in
          let s2 := fst (unlock_locker cfg locker_id s1) in
          let s3 := release (save_outcome env) card_id_str locker_id s2 in
          let s4 := fst (send_to_server (send_outcome env) "pickup_complete"
                                        trans s3) in
          (s4, (true, ("Clothes picked up from locker " ++ locker_id)%string))
      | None =>
          match complete_first
                  (fun trans =>
                     String.eqb (Transaction.card_id trans) card_id_str
                     && negb (is_completed (Transaction.status trans)))
                  (now1 env) (transactions (data s)) with
          | Some (trans, ts) =>
              let locker_id := Transaction.locker_id trans in
              let s1 := with_transactions s ts in
              let s2 := fst (unlock_locker cfg locker_id s1) in
              let s3 := release (save_outcome env) card_id_str locker_id s2 in
              (s3, (true, ("Clothes picked up from locker " ++ locker_id
                           ++ " (fallback)")%string))
          | None =>
              match dict_get card_id_str (active_cards (data s)) with
              | Some info =>
                  let locker_id := Assignment.locker_id info in
                  let s1 := release (save_outcome env) card_id_str locker_id s in
                  (s1, (true, ("Locker " ++ locker_id
                               ++ " unlocked and reset")%string))
              | None => (s, (false, "Transaction not found"))
              end
          end
      end
  end.

(** [load_data] when no database file exists. *)
Definition default_data (cfg : Config) : Data :=
  {| active_cards := [];
     transactions := [];
     available_lockers := keys (relay_pins cfg) |}.

(** *** Reachable states *)

(** One request served by the locker system. *)
Inductive step (cfg : Config) : System -> System -> Prop :=
| step_drop_off env catalog s req :
    step cfg s (fst (drop_off cfg env catalog s req))
| step_assign env s card_id locker_id wash_type_id :
    step cfg s (fst (assign_card_to_locker env s card_id locker_id wash_type_id))
| step_pickup env s card_id :
    step cfg s (fst (process_pickup cfg env s card_id)).

(** Initial states: every configured locker is free and no card is active. *)
Definition initial (cfg : Config) (s : System) : Prop :=
  active_cards (data s) = [] /\
  available_lockers (data s) = keys (relay_pins cfg).

Inductive reachable (cfg : Config) : System -> Prop :=
| reach_initial s : initial cfg s -> reachable cfg s
| reach_step s s' : reachable cfg s -> step cfg s s' -> reachable cfg s'.

(** A locker is occupied when some active assignment refers to it. *)
Definition occupied (d : Data) (locker_id : string) : Prop :=
  exists card_id info,
    In (card_id, info) (active_cards d) /\ Assignment.locker_id info = locker_id.

Definition free (d : Data) (locker_id : string) : Prop :=
  In locker_id (available_lockers d).

(** [self.config["wash_types"]] of [DEFAULT_CONFIG]: the catalog
    [get_wash_types] falls back to. *)
Definition DEFAULT_WASH_TYPES : list WashType.t :=
  [ WashType.mk (IdInt 1) "Standard Wash" 5 None;
    WashType.mk (IdInt 2) "Delicate Wash" 7.5 None;
    WashType.mk (IdInt 3) "Heavy Duty" 10 None ].

(** The same request environment with other outcomes of the file write and
    of the HTTP post. *)
Definition with_outcomes (env : Env) (o : SaveOutcome) (sent : bool) : Env :=
  {| uuid4 := uuid4 env;
     now1 := now1 env;
     now2 := now2 env;
     get_wash_types := get_wash_types env;
     save_outcome := o;
     send_outcome := sent |}.

(** The keys of a dictionary are pairwise different even up to case. *)
Definition keys_distinct_ci {V : Type} (d : dict V) : Prop :=
  NoDup (map lower (keys d)).

(** The second [process_pickup] for [card_id] finds no assignment and
    changes nothing, whenever the first one succeeded. *)
Definition second_pickup_rejected (cfg : Config) (env1 env2 : Env)
  (s : System) (card_id : string) : Prop :=
  let r1 := process_pickup cfg env1 s card_id in
  fst (snd r1) = true ->
  process_pickup cfg env2 (fst r1) card_id
  = (fst r1, (false, "Card not associated with any locker")).

(** Consistency of the three collections with the configured lockers:
    the representation invariant of [self.data]. *)
Record consistent (cfg : Config) (d : Data) : Prop := mkConsistent {
  pool_nodup : NoDup (available_lockers d);
  cards_distinct : keys_distinct_ci (active_cards d);
  lockers_distinct :
    NoDup (map (fun p => Assignment.locker_id (snd p)) (active_cards d));
  free_not_occupied : forall l, free d l -> ~ occupied d l;
  configured_covered :
    forall l, In l (keys (relay_pins cfg)) <-> free d l \/ occupied d l;
  assignment_has_transaction :
    forall k a, In (k, a) (active_cards d) ->
      In (Assignment.transaction_id a)
         (map Transaction.transaction_id (transactions d))
}.

(** [self.data] after a successful [assign_card_to_locker]. *)
Definition assigned_data (env : Env) (d : Data) (card_id locker_id : string)
  (selected : WashType.t) : Data :=
  {| active_cards :=
       dict_set card_id (Assignment.mk locker_id (uuid4 env)) (active_cards d);
     transactions :=
       transactions d ++ [LockerTransaction env card_id locker_id (Some selected)];
     available_lockers := remove_first locker_id (available_lockers d) |}.

(** [self.data] after a [process_pickup] that released [locker_id] and left
    [ts] as the transaction list. *)
Definition released_data (d : Data) (card_id_str locker_id : string)
  (ts : list Transaction.t) : Data :=
  {| active_cards := dict_del card_id_str (active_cards d);
     transactions := ts;
     available_lockers := append_if_absent locker_id (available_lockers d) |}.

From Stdlib Require Import Lqa.

(* ================================================================== *)
(** ** Counting polls *)

Definition poll_is_card (tk : Tick) : bool :=
  match poll tk with PollCard _ => true | _ => false end.

Definition poll_is_error (tk : Tick) : bool :=
  match poll tk with PollError => true | _ => false end.


(* ================================================================== *)
(** ** The database file ([load_data]) *)

(** The file [DB_FILE]: absent, or present with a document that parses
    ([Some]) or does not ([None]). *)
Inductive DbFile :=
| NoFile
| FileWith (content : option Data).

(** [load_data] (lines 213-231): the data it returns and the file it
    leaves.  When the file is absent the default database is written
    outside any [try]; [created = false] stands for that write raising, and
    the exception leaves the method ([None]). *)
Definition load_data (cfg : Config) (created : bool) (f : DbFile)
  : option (Data * DbFile) :=
  match f with
  | NoFile =>
      if created
      then Some (default_data cfg, FileWith (Some (default_data cfg)))
      else None
  | FileWith (Some d) => Some (d, f)
  | FileWith None => Some (default_data cfg, f)
  end.

(** The file as a request leaves it: it exists, with the content [disk]. *)
Definition db_file (s : System) : DbFile := FileWith (disk s).

(* ================================================================== *)
(** ** The wash-type catalog ([RFIDLockerSystem.get_wash_types]) *)

(** A wash type as the server sends it: any key may be missing. *)
Module RawWashType.
Record t := mk {
  id : option wt_id;
  name : option string;
  price : option Q;
  estimated_time : option Z
}.
End RawWashType.

(** What the post to [/get_wash_types] does: a response with a status code
    and the list under its ["wash_types"] key (empty when the key is
    missing), or an exception. *)
Inductive Fetch :=
| Responded (status_code : Z) (wash_types : list RawWashType.t)
| FetchRaised.

(** The loop that fills in the fields the interface expects
    (lines 748-755). *)
Definition fill_defaults (w : RawWashType.t) : WashType.t :=
  {| WashType.id :=
       match RawWashType.id w with Some i => i | None => IdInt 0 end;
     WashType.name :=
       match RawWashType.name w with Some n => n | None => "Unknown" end;
     WashType.price :=
       match RawWashType.price w with Some p => p | None => 0%Q end;
     WashType.estimated_time := RawWashType.estimated_time w |}.

Module Catalog.
(** [get_wash_types] (lines 723-779).  [config_wash_types] is
    [self.config["wash_types"]]; [cache] is [self.server_wash_types]
    ([None] while the attribute does not exist).  The result is the list
    returned and the cache afterwards. *)
Definition get_wash_types (config_wash_types : list WashType.t)
  (cache : option (list WashType.t)) (f : Fetch)
  : list WashType.t * option (list WashType.t) :=
  let fallback :=
    match cache with
    | Some (w :: ws) => (w :: ws, cache)
    | _ => (config_wash_types, cache)
    end in
  match f with
  | Responded status_code wash_types =>
      if status_code =? 200 then
        match wash_types with
        | [] => fallback
        | _ :: _ =>
            let filled := map fill_defaults wash_types in
            (filled, Some filled)
        end
      else fallback
  | FetchRaised => fallback
  end.

(** Successive calls: the list each call returned, and the final cache. *)
Fixpoint calls (config_wash_types : list WashType.t)
  (cache : option (list WashType.t)) (fs : list Fetch)
  : list (list WashType.t) * option (list WashType.t) :=
  match fs with
  | [] => ([], cache)
  | f :: rest =>
      let '(r, cache1) := get_wash_types config_wash_types cache f in
      let '(rs, cache2) := calls config_wash_types cache1 rest in
      (r :: rs, cache2)
  end.
End Catalog.

(** Did the fetch deliver a usable list? *)
Definition delivered (f : Fetch) : option (list RawWashType.t) :=
  match f with
  | Responded status_code (w :: ws) =>
      if status_code =? 200 then Some (w :: ws) else None
  | _ => None
  end.

(** The most recent usable list among the fetches [fs], oldest first. *)
Fixpoint last_delivered (fs : list Fetch) : option (list RawWashType.t) :=
  match fs with
  | [] => None
  | f :: rest =>
      match last_delivered rest with
      | Some l => Some l
      | None => delivered f
      end
  end.

(* ================================================================== *)
(** ** Status and health ([get_system_status], [get_health]) *)

(** [f"{int(time_diff)} seconds ago"]; [int] truncates towards zero. *)
Definition seconds_ago (time_diff : Z) : string :=
  (str_of_int (Z.quot time_diff 1000000) ++ " seconds ago")%string.

(** The result of [get_system_status] without [system_name], [last_sync]
    and the floating-point [success_rate]. *)
Record SystemStatus := mkSystemStatus {
  st_active_cards : Z;
  st_available_lockers : list string;
  st_total_transactions : Z;
  st_rfid_status : string;
  st_rfid_last_read : string;
  st_rfid_error_count : Z
}.

(** [get_system_status] (lines 696-721); [now] is [time.time()]. *)
Definition get_system_status (det : Detector) (s : System) (now : Z)
  : SystemStatus :=
  let '(rfid_status, last_read_time) :=
    match last_successful_read det with
    | None => ("OK", "Never")
    | Some t =>
        let time_diff := now - t in
        (if seconds 300 <? time_diff then "WARNING" else "OK",
         seconds_ago time_diff)
    end in
  {| st_active_cards := Z.of_nat (List.length (active_cards (data s)));
     st_available_lockers := available_lockers (data s);
     st_total_transactions := Z.of_nat (List.length (transactions (data s)));
     st_rfid_status := rfid_status;
     st_rfid_last_read := last_read_time;
     st_rfid_error_count := rfid_errors det |}.

(** The result of [get_health] without the constant fields ([uptime],
    [memory_usage]) and the formatted floating-point [read_success_rate]. *)
Record Health := mkHealth {
  h_status : string;
  h_rfid_status : string;
  h_last_successful_read : option string;
  h_error_count : Z;
  h_available_lockers : Z;
  h_active_transactions : Z;
  h_issues : option (list string)
}.

(** [get_health] (lines 781-802); [t1] and [t2] are its two readings of
    [time.time()]. *)
Definition get_health (det : Detector) (s : System) (t1 t2 : Z) : Health :=
  let rfid_status :=
    match last_successful_read det with
    | Some t => if t1 - t <? seconds 300 then "OK" else "WARNING"
    | None => "WARNING"
    end in
  let degraded := negb (String.eqb rfid_status "OK") in
  {| h_status := if degraded then "degraded" else "healthy";
     h_rfid_status := rfid_status;
     h_last_successful_read :=
       match last_successful_read det with
       | None => None
       | Some t => Some (seconds_ago (t2 - t))
       end;
     h_error_count := rfid_errors det;
     h_available_lockers := Z.of_nat (List.length (available_lockers (data s)));
     h_active_transactions := Z.of_nat (List.length (active_cards (data s)));
     h_issues :=
       if degraded
       then Some ["RFID reader may not be functioning correctly"]
       else None |}.

(* ================================================================== *)
(** ** The [/api/pick-up] and [/api/read-card] routes *)

(** [pick_up] (lines 1002-1021). *)
Definition pick_up (cfg : Config) (env : Env) (s : System)
  (req_card : option string) : System * Response :=
  match req_card with
  | None => (s, failure "Missing card_id")
  | Some card_id =>
      let '(s1, (ok, msg)) := process_pickup cfg env s card_id in
      (s1, {| success := ok; message := msg; resp_locker_id := None |})
  end.

(** [read_card] (lines 899-914): the card of a successful answer. *)
Definition read_card (cfg : Config) (now : Z) (q : list CardRead.t)
  : bool * option CardRead.t :=
  match get_last_card cfg now q with
  | Some card => (true, Some card)
  | None => (false, None)
  end.

(* ================================================================== *)
(** ** Sequences of requests *)

Inductive steps (cfg : Config) : System -> System -> Prop :=
| steps_refl s : steps cfg s s
| steps_then s s1 s2 : steps cfg s s1 -> step cfg s1 s2 -> steps cfg s s2.

(** The relay outputs of one run of [unlock_locker] on [pin]. *)
Definition unlock_cycle (cfg : Config) (pin : Z) : list Gpio :=
  [GpioOutput pin false; Hold (unlock_duration cfg); GpioOutput pin true].


(** [t'] is the record [t], possibly completed since. *)
Definition same_booking (t t' : Transaction.t) : Prop :=
  Transaction.transaction_id t' = Transaction.transaction_id t
  /\ Transaction.card_id t' = Transaction.card_id t
  /\ Transaction.locker_id t' = Transaction.locker_id t
  /\ Transaction.wash_type t' = Transaction.wash_type t
  /\ Transaction.drop_off_time t' = Transaction.drop_off_time t
  /\ Transaction.estimated_completion_time t'
     = Transaction.estimated_completion_time t
  /\ (Transaction.status t = completed -> Transaction.status t' = completed).

(** One request changes the history in one of three ways. *)
Definition history_step (ts ts' : list Transaction.t) : Prop :=
  ts' = ts
  \/ (exists t, ts' = ts ++ [t] /\ Transaction.status t = pending)
  \/ (exists now l1 t l2,
        ts = l1 ++ t :: l2 /\ ts' = l1 ++ mark_completed now t :: l2).

(** *** Requests whose transaction ids are new *)

(** [uuid.uuid4()] returned an id that no transaction carries yet. *)
Definition fresh_uuid (env : Env) (s : System) : Prop :=
  ~ In (uuid4 env) (map Transaction.transaction_id (transactions (data s))).

Inductive step_fresh (cfg : Config) : System -> System -> Prop :=
| step_fresh_drop_off env catalog s req :
    fresh_uuid env s ->
    step_fresh cfg s (fst (drop_off cfg env catalog s req))
| step_fresh_assign env s card_id locker_id wash_type_id :
    fresh_uuid env s ->
    step_fresh cfg s
      (fst (assign_card_to_locker env s card_id locker_id wash_type_id))
| step_fresh_pickup env s card_id :
    step_fresh cfg s (fst (process_pickup cfg env s card_id)).

(** A start without active cards, whose history is closed. *)
Definition closed_start (s : System) : Prop :=
  active_cards (data s) = []
  /\ NoDup (map Transaction.transaction_id (transactions (data s)))
  /\ Forall (fun t => Transaction.status t = completed) (transactions (data s)).

Inductive reachable_fresh (cfg : Config) : System -> Prop :=
| reach_fresh_start s : closed_start s -> reachable_fresh cfg s
| reach_fresh_step s s' :
    reachable_fresh cfg s -> step_fresh cfg s s' -> reachable_fresh cfg s'.

(** The transactions of a card that are not completed. *)
Definition open_transactions (d : Data) (card_id : string)
  : list Transaction.t :=
  filter (fun t => String.eqb (Transaction.card_id t) card_id
                   && negb (is_completed (Transaction.status t)))
         (transactions d).

(** Agreement between [active_cards] and the history. *)
Record ledger (d : Data) : Prop := mkLedger {
  ledger_ids : NoDup (map Transaction.transaction_id (transactions d));
  ledger_keys : NoDup (keys (active_cards d));
  ledger_active :
    forall k a, In (k, a) (active_cards d) ->
      exists t, In t (transactions d)
                /\ Transaction.transaction_id t = Assignment.transaction_id a
                /\ Transaction.card_id t = k
                /\ Transaction.locker_id t = Assignment.locker_id a
                /\ Transaction.status t = pending;
  ledger_open :
    forall t, In t (transactions d) ->
      Transaction.status t <> completed ->
      exists a, In (Transaction.card_id t, a) (active_cards d)
                /\ Assignment.transaction_id a = Transaction.transaction_id t;
  ledger_status :
    forall t, In t (transactions d) ->
      Transaction.status t = pending \/ Transaction.status t = completed
}.


(** The content of the file after a request that called [save_data] with
    outcome [o], from the state [s] before and the state [s'] after. *)
Definition saved_disk (o : SaveOutcome) (s s' : System) : option Data :=
  match o with
  | SaveOk => Some (data s')
  | SaveOpenFails => disk s
  | SaveWriteFails => None
  end.

(** The name the catalog gives a wash type of the server. *)
Definition catalog_name (w : RawWashType.t) : string :=
  WashType.name (fill_defaults w).
(* ================================================================== *)
(** * Properties *)

(** ** Lists, strings and dictionaries *)

Lemma mem_In x l : mem x l = true <-> In x l.
Proof.
  unfold mem. rewrite existsb_exists. split.
  - intros (y & Hy & E). apply String.eqb_eq in E. now subst.
  - intros H. exists x. split; [assumption | apply String.eqb_refl].
Qed.

Lemma mem_false x l : mem x l = false <-> ~ In x l.
Proof.
  rewrite <- mem_In. destruct (mem x l); split; congruence.
Qed.

Lemma find_app_skip {A} (f : A -> bool) l1 l2 :
  Forall (fun x => f x = false) l1 -> find f (l1 ++ l2) = find f l2.
Proof.
  induction 1 as [|x l1 Hx _ IH]; simpl; [reflexivity|].
  now rewrite Hx.
Qed.

Lemma find_all_false {A} (f : A -> bool) l :
  Forall (fun x => f x = false) l -> find f l = None.
Proof.
  induction 1 as [|x l Hx _ IH]; simpl; [reflexivity|]. now rewrite Hx.
Qed.

Lemma dict_get_mem {V} k (d : dict V) :
  dict_mem k d = true <-> exists v, dict_get k d = Some v.
Proof.
  unfold dict_mem, keys. induction d as [|[k' v'] d IH]; simpl.
  - split; [discriminate | intros [v Hv]; discriminate].
  - rewrite (String.eqb_sym k k'). destruct (String.eqb k' k); simpl.
    + split; eauto.
    + exact IH.
Qed.

Lemma dict_get_not_mem {V} k (d : dict V) :
  dict_mem k d = false <-> dict_get k d = None.
Proof.
  pose proof (dict_get_mem k d) as H.
  destruct (dict_mem k d), (dict_get k d) as [v|]; split; intros E;
    try congruence.
  - destruct H as [H _]. destruct (H eq_refl); discriminate.
  - destruct H as [_ H]. assert (true = false) by (symmetry; apply H; eauto).
    discriminate.
Qed.

Lemma dict_get_In {V} k v (d : dict V) : dict_get k d = Some v -> In (k, v) d.
Proof.
  induction d as [|[k' v'] d IH]; simpl; [discriminate|].
  destruct (String.eqb k' k) eqn:E.
  - apply String.eqb_eq in E. intros [= ->]. subst. now left.
  - intros H. right. auto.
Qed.

(** ** The card queue *)

(** Every entry the detector ever stores has [read_count = 1]: no path of
    [enqueue_card] writes another value. *)
Lemma refresh_duplicate_read_count now cid q q' :
  Forall (fun e => CardRead.read_count e = 1) q ->
  refresh_duplicate now cid q = Some q' ->
  Forall (fun e => CardRead.read_count e = 1) q'.
Proof.
  intros H. revert q'. induction H as [|e q He Hq IH]; simpl; intros q'.
  - discriminate.
  - destruct (recent_duplicate now cid e).
    + intros [= <-]. constructor; assumption.
    + destruct (refresh_duplicate now cid q) as [r|]; simpl; [|discriminate].
      intros [= <-]. constructor; [assumption | now apply IH].
Qed.

Lemma enqueue_card_read_count now cid q :
  Forall (fun e => CardRead.read_count e = 1) q ->
  Forall (fun e => CardRead.read_count e = 1) (enqueue_card now cid q).
Proof.
  intros H. unfold enqueue_card.
  assert (H1 : Forall (fun e => CardRead.read_count e = 1)
                 match refresh_duplicate now cid q with
                 | Some q' => q'
                 | None => q ++ [CardRead.mk cid now 1]
                 end).
  { destruct (refresh_duplicate now cid q) as [q'|] eqn:E.
    - eapply refresh_duplicate_read_count; eassumption.
    - apply Forall_app. split; [assumption|]. now constructor. }
  destruct (10 <? _); [|assumption].
  destruct H1; simpl; [constructor | assumption].
Qed.

(** What the detector does do on a presentation.  When the queue holds an
    entry of the same card less than two seconds old, the first such entry
    gets the current time and keeps its [read_count]; nothing is added. *)
Lemma refresh_duplicate_first now cid older e newer :
  Forall (fun x => recent_duplicate now cid x = false) older ->
  recent_duplicate now cid e = true ->
  refresh_duplicate now cid (older ++ e :: newer)
  = Some (older ++ CardRead.mk cid now (CardRead.read_count e) :: newer).
Proof.
  intros Hold He. induction Hold as [|x older Hx _ IH]; simpl.
  - rewrite He. unfold recent_duplicate in He.
    apply andb_true_iff in He. destruct He as [Hc _].
    apply String.eqb_eq in Hc. now rewrite Hc.
  - now rewrite Hx, IH.
Qed.

Lemma refresh_duplicate_none now cid q :
  Forall (fun x => recent_duplicate now cid x = false) q ->
  refresh_duplicate now cid q = None.
Proof.
  induction 1 as [|x q Hx _ IH]; simpl; [reflexivity|]. now rewrite Hx, IH.
Qed.

Lemma enqueue_card_duplicate now cid older e newer :
  Forall (fun x => recent_duplicate now cid x = false) older ->
  recent_duplicate now cid e = true ->
  (List.length (older ++ e :: newer) <= 10)%nat ->
  enqueue_card now cid (older ++ e :: newer)
  = older ++ CardRead.mk cid now (CardRead.read_count e) :: newer.
Proof.
  intros Hold He Hlen. unfold enqueue_card.
  rewrite (refresh_duplicate_first _ _ _ _ _ Hold He).
  replace (10 <? _) with false; [reflexivity|].
  symmetry. apply Z.ltb_ge. rewrite length_app in *. simpl in *. lia.
Qed.

(** Otherwise a new entry with [read_count = 1] goes to the end, and the
    oldest entry leaves when the queue would exceed ten entries. *)
Lemma enqueue_card_fresh now cid q :
  Forall (fun x => recent_duplicate now cid x = false) q ->
  enqueue_card now cid q
  = if (10 <=? Z.of_nat (List.length q))
    then tl (q ++ [CardRead.mk cid now 1])
    else q ++ [CardRead.mk cid now 1].
Proof.
  intros H. unfold enqueue_card. rewrite (refresh_duplicate_none _ _ _ H).
  rewrite length_app. simpl.
  destruct (10 <=? Z.of_nat (List.length q)) eqn:E.
  - apply Z.leb_le in E. replace (10 <? _) with true; [reflexivity|].
    symmetry. apply Z.ltb_lt. lia.
  - apply Z.leb_gt in E. replace (10 <? _) with false; [reflexivity|].
    symmetry. apply Z.ltb_ge. lia.
Qed.

(** C1 (the program departs from it). Two presentations of the same card
    one second apart leave a single entry, its timestamp refreshed, but its
    [read_count] is still 1 and not 2: the duplicate branch of the detector
    never increments the counter.  The same holds through the loop itself for
    a card whose hardware id is 42.  The rest of the sentence holds: a third
    presentation three seconds later is appended as a second entry with
    [read_count = 1]. *)
Theorem dedup_leaves_read_count_at_one :
  enqueue_card (seconds 1) "A1" (enqueue_card 0 "A1" [])
    = [CardRead.mk "A1" (seconds 1) 1]
  /\ card_queue
       (fst (rfid_reader_loop
               [mkTick (PollCard 42) 0 0 0 ReinitOk 0;
                mkTick (PollCard 42) (seconds 1) 0 0 ReinitOk 0]
               (detector_start 0)))
     = [CardRead.mk "42" (seconds 1) 1]
  /\ enqueue_card (seconds 4) "A1" [CardRead.mk "A1" (seconds 1) 1]
     = [CardRead.mk "A1" (seconds 1) 1; CardRead.mk "A1" (seconds 4) 1].
Proof.
  repeat split; vm_compute; reflexivity.
Qed.

(** The detector, started on an empty queue, only ever holds entries with
    [read_count = 1], whatever it polls. *)
Lemma detector_read_count_always_one ticks s :
  Forall (fun e => CardRead.read_count e = 1) (card_queue s) ->
  Forall (fun e => CardRead.read_count e = 1)
         (card_queue (fst (rfid_reader_loop ticks s))).
Proof.
  revert s. induction ticks as [|tk ticks IH]; intros s H; simpl; [assumption|].
  destruct (rfid_reader_loop_step tk s) as [s1 acts] eqn:E1.
  specialize (IH s1).
  destruct (rfid_reader_loop ticks s1) as [s2 tr] eqn:E2. simpl in *.
  apply IH. unfold rfid_reader_loop_step in E1.
  destruct (poll tk); inversion E1; subst; simpl; try assumption.
  now apply enqueue_card_read_count.
Qed.

(** C2. [get_last_card] returns the entry nearest to the newest end that has
    [read_count > 1] and is within the validity window; when no entry
    qualifies it returns the newest entry if that one is within the window
    and nothing otherwise (nothing at all on an empty queue).  With the
    default window of 30 s, an entry read twice 10 s ago wins over an entry
    read once 1 s ago, in either queue order. *)
Theorem get_last_card_ranking (cfg : Config) (now : Z) :
  let w := validity_window cfg in
  (forall older c newer,
      multi_read_recent w now c = true ->
      Forall (fun e => multi_read_recent w now e = false) newer ->
      get_last_card cfg now (older ++ c :: newer) = Some c)
  /\ (forall older newest,
      Forall (fun e => multi_read_recent w now e = false) (older ++ [newest]) ->
      get_last_card cfg now (older ++ [newest])
      = if recent w now newest then Some newest else None)
  /\ get_last_card cfg now [] = None
  /\ (card_validity_window cfg = None \/ card_validity_window cfg = Some 30 ->
      forall a b,
        let multi := CardRead.mk a (now - seconds 10) 2 in
        let single := CardRead.mk b (now - seconds 1) 1 in
        get_last_card cfg now [multi; single] = Some multi
        /\ get_last_card cfg now [single; multi] = Some multi).
Proof.
  intros w. repeat split.
  - intros older c newer Hc Hnewer. unfold get_last_card.
    rewrite rev_app_distr. simpl rev. rewrite <- app_assoc. simpl app.
    fold w.
    assert (F : find (multi_read_recent w now) (rev newer ++ c :: rev older)
                = Some c).
    { rewrite find_app_skip.
      - simpl. now rewrite Hc.
      - apply Forall_rev. assumption. }
    rewrite F. destruct (rev newer ++ c :: rev older) eqn:E; [|reflexivity].
    destruct (rev newer); discriminate.
  - intros older newest Hall. unfold get_last_card.
    rewrite rev_app_distr. simpl. fold w.
    apply Forall_app in Hall. destruct Hall as [Hold Hnew].
    inversion Hnew as [|? ? Hn _]; subst. rewrite Hn.
    rewrite find_all_false; [reflexivity|]. now apply Forall_rev.
  - assert (Hw : w = 30) by (unfold w, validity_window; destruct H as [-> | ->]; reflexivity).
    unfold get_last_card. fold w. rewrite Hw. simpl.
    unfold multi_read_recent, recent, seconds. simpl.
    replace (now - (now - 1000000) <=? 30000000) with true
      by (symmetry; apply Z.leb_le; lia).
    replace (now - (now - 10000000) <=? 30000000) with true
      by (symmetry; apply Z.leb_le; lia).
    reflexivity.
  - assert (Hw : w = 30) by (unfold w, validity_window; destruct H as [-> | ->]; reflexivity).
    unfold get_last_card. fold w. rewrite Hw. simpl.
    unfold multi_read_recent, recent, seconds. simpl.
    replace (now - (now - 10000000) <=? 30000000) with true
      by (symmetry; apply Z.leb_le; lia).
    reflexivity.
Qed.

Lemma get_last_card_ranking_witness :
  get_last_card DEFAULT_CONFIG (seconds 100)
    ([CardRead.mk "B" (seconds 80) 1]
       ++ CardRead.mk "A1" (seconds 90) 2 :: [CardRead.mk "C" (seconds 99) 1])
  = Some (CardRead.mk "A1" (seconds 90) 2).
Proof.
  apply (proj1 (get_last_card_ranking DEFAULT_CONFIG (seconds 100))).
  - reflexivity.
  - repeat constructor.
Defined.

(** ** The detector loop *)

Lemma step_error_counter tk s :
  poll tk = PollError ->
  consecutive_errors (fst (rfid_reader_loop_step tk s)) = consecutive_errors s + 1.
Proof.
  intros E. unfold rfid_reader_loop_step. now rewrite E.
Qed.

Lemma step_error_reinitializes tk s :
  poll tk = PollError ->
  0 <= consecutive_errors s ->
  reinitializes (snd (rfid_reader_loop_step tk s))
  = ((consecutive_errors s + 1) mod 20 =? 0).
Proof.
  intros E Hce. unfold rfid_reader_loop_step. rewrite E. simpl.
  set (ce := consecutive_errors s + 1).
  destruct (ce <? 5) eqn:E5; [|destruct (ce <? 20) eqn:E20].
  - apply Z.ltb_lt in E5. simpl. symmetry. apply Z.eqb_neq.
    rewrite Z.mod_small; lia.
  - apply Z.ltb_lt in E20. simpl. symmetry. apply Z.eqb_neq.
    rewrite Z.mod_small; lia.
  - destruct (ce mod 20 =? 0); [|reflexivity].
    destruct (reinit tk); reflexivity.
Qed.

Lemma loop_trace_length ticks s :
  List.length (snd (rfid_reader_loop ticks s)) = List.length ticks.
Proof.
  revert s. induction ticks as [|tk ticks IH]; intros s; simpl; [reflexivity|].
  destruct (rfid_reader_loop_step tk s) as [s1 acts].
  specialize (IH s1). destruct (rfid_reader_loop ticks s1) as [s2 tr].
  simpl in *. now rewrite IH.
Qed.

(** During a run of failing polls the [k]-th iteration (counted from 0)
    calls [initialize_rfid] exactly when the counter it reaches is a
    multiple of 20, whatever the earlier calls returned. *)
Lemma failing_run_reinitializes ticks :
  Forall (fun tk => poll tk = PollError) ticks ->
  forall s k,
    0 <= consecutive_errors s ->
    (k < List.length ticks)%nat ->
    nth k (map reinitializes (snd (rfid_reader_loop ticks s))) false
    = ((consecutive_errors s + Z.of_nat k + 1) mod 20 =? 0).
Proof.
  induction 1 as [|tk ticks Htk _ IH]; intros s k Hce Hk; simpl in Hk; [lia|].
  simpl. pose proof (step_error_reinitializes tk s Htk Hce) as Hr.
  pose proof (step_error_counter tk s Htk) as Hc.
  destruct (rfid_reader_loop_step tk s) as [s1 acts]. simpl in Hr, Hc.
  specialize (IH s1).
  destruct (rfid_reader_loop ticks s1) as [s2 tr]. simpl in *.
  destruct k as [|k]; simpl.
  - rewrite Hr. now rewrite Z.add_0_r.
  - rewrite IH by lia. rewrite Hc. f_equal. f_equal. lia.
Qed.

(** C7. (1) An iteration that fails and brings the consecutive-error counter
    to a positive multiple of 20 calls the reinitialisation of the reader.
    (2) In a run of 25 failing polls from the start of the loop, the 20th
    iteration, and no other, reinitialises.  (3) Whatever a reinitialisation
    returns (success, failure, an exception), the loop goes on: every later
    poll is executed, the counter keeps counting and the reinitialisation is
    tried again at the next multiple of 20.  (4) An iteration that reads a
    card sets the counter to zero and records the time of the read. *)
Theorem detector_fault_recovery :
  (forall tk s,
      poll tk = PollError ->
      0 < consecutive_errors s + 1 ->
      (consecutive_errors s + 1) mod 20 = 0 ->
      consecutive_errors (fst (rfid_reader_loop_step tk s))
        = consecutive_errors s + 1
      /\ In (AReinitialize (reinit tk)) (snd (rfid_reader_loop_step tk s)))
  /\ (forall ticks t0,
      List.length ticks = 25%nat ->
      Forall (fun tk => poll tk = PollError) ticks ->
      map reinitializes (snd (rfid_reader_loop ticks (detector_start t0)))
      = repeat false 19 ++ [true] ++ repeat false 5)
  /\ (forall ticks s,
      List.length (snd (rfid_reader_loop ticks s)) = List.length ticks)
  /\ (forall ticks s k,
      Forall (fun tk => poll tk = PollError) ticks ->
      0 <= consecutive_errors s ->
      (k < List.length ticks)%nat ->
      nth k (map reinitializes (snd (rfid_reader_loop ticks s))) false
      = ((consecutive_errors s + Z.of_nat k + 1) mod 20 =? 0))
  /\ (forall tk s id,
      poll tk = PollCard id ->
      let s' := fst (rfid_reader_loop_step tk s) in
      consecutive_errors s' = 0
      /\ last_successful_read s' = Some (tick_time1 tk)
      /\ loop_last_successful_read s' = tick_time2 tk).
Proof.
  split; [|split; [|split; [|split]]].
  - intros tk s E Hpos Hmod. split; [now apply step_error_counter|].
    unfold rfid_reader_loop_step. rewrite E. simpl.
    set (ce := consecutive_errors s + 1) in *.
    assert (20 <= ce).
    { destruct (Z_lt_ge_dec ce 20) as [Hlt|]; [|lia].
      rewrite Z.mod_small in Hmod; lia. }
    replace (ce <? 5) with false by (symmetry; apply Z.ltb_ge; lia).
    replace (ce <? 20) with false by (symmetry; apply Z.ltb_ge; lia).
    rewrite Hmod. simpl. apply in_or_app. left.
    destruct (reinit tk); simpl; auto.
  - intros ticks t0 Hlen Hall.
    apply nth_ext with (d := false) (d' := false).
    + rewrite length_map, loop_trace_length, Hlen. reflexivity.
    + intros k Hk. rewrite length_map, loop_trace_length, Hlen in Hk.
      rewrite failing_run_reinitializes; [|assumption|simpl; lia|lia].
      simpl consecutive_errors.
      do 25 (destruct k as [|k]; [reflexivity|]). lia.
  - apply loop_trace_length.
  - intros ticks s k Hall Hce Hk. now apply failing_run_reinitializes.
  - intros tk s id E. unfold rfid_reader_loop_step. rewrite E. simpl. auto.
Qed.

Lemma detector_fault_recovery_witness :
  let tk := mkTick PollError 0 0 0 ReinitFailed 0 in
  let s := fst (rfid_reader_loop (repeat tk 19) (detector_start 0)) in
  consecutive_errors (fst (rfid_reader_loop_step tk s)) = consecutive_errors s + 1
  /\ In (AReinitialize ReinitFailed) (snd (rfid_reader_loop_step tk s)).
Proof.
  apply (proj1 detector_fault_recovery
           (mkTick PollError 0 0 0 ReinitFailed 0)
           (fst (rfid_reader_loop (repeat (mkTick PollError 0 0 0 ReinitFailed 0) 19)
                                  (detector_start 0)))).
  - reflexivity.
  - vm_compute. reflexivity.
  - vm_compute. reflexivity.
Defined.

(** ** The actuator *)



(** ** Strings *)

Lemma rstrip_cons c s :
  rstrip (String c s)
  = match rstrip s with
    | EmptyString => if isspace c then EmptyString else String c EmptyString
    | r => String c r
    end.
Proof. reflexivity. Qed.

Lemma rstrip_idempotent s : rstrip (rstrip s) = rstrip s.
Proof.
  induction s as [|c s IH]; [reflexivity|].
  rewrite rstrip_cons.
  destruct (rstrip s) as [|c2 r] eqn:E.
  - destruct (isspace c) eqn:Ec; [reflexivity|].
    rewrite rstrip_cons. simpl rstrip. now rewrite Ec.
  - rewrite rstrip_cons, IH. reflexivity.
Qed.

Lemma lstrip_head_clean s : head_clean (lstrip s).
Proof.
  induction s as [|c s IH]; simpl; [exact I|].
  destruct (isspace c) eqn:E; [assumption | exact E].
Qed.

Lemma rstrip_head_clean s : head_clean s -> head_clean (rstrip s).
Proof.
  destruct s as [|c s]; simpl; [trivial|]. intros Hc.
  destruct (rstrip s); [now rewrite Hc | assumption].
Qed.

Lemma lstrip_clean s : head_clean s -> lstrip s = s.
Proof.
  destruct s as [|c s]; simpl; [reflexivity|]. now intros ->.
Qed.

Lemma strip_idempotent s : strip (strip s) = strip s.
Proof.
  unfold strip.
  rewrite (lstrip_clean (rstrip (lstrip s))).
  - apply rstrip_idempotent.
  - apply rstrip_head_clean, lstrip_head_clean.
Qed.

(** ** Lists and dictionaries, continued *)

Lemma remove_first_In x y l :
  In y (remove_first x l) -> In y l.
Proof.
  induction l as [|z l IH]; simpl; [tauto|].
  destruct (String.eqb z x); simpl; tauto.
Qed.

Lemma remove_first_NoDup x l : NoDup l -> NoDup (remove_first x l).
Proof.
  induction 1 as [|z l Hz Hl IH]; simpl; [constructor|].
  destruct (String.eqb z x); [assumption|].
  constructor; [|assumption]. intros H. apply Hz. eapply remove_first_In, H.
Qed.

Lemma remove_first_spec x y l :
  NoDup l -> (In y (remove_first x l) <-> In y l /\ y <> x).
Proof.
  induction 1 as [|z l Hz Hl IH]; simpl; [tauto|].
  destruct (String.eqb z x) eqn:E.
  - apply String.eqb_eq in E. subst z. split.
    + intros H. split; [now right|]. intros ->. contradiction.
    + intros [[->|H] Hne]; [congruence | assumption].
  - apply String.eqb_neq in E. simpl. rewrite IH. split.
    + intros [->|[H Hne]]; [split; [now left | assumption] | split; [now right | assumption]].
    + intros [[->|H] Hne]; [now left | right; now split].
Qed.


Lemma append_if_absent_In x y l :
  In y (append_if_absent x l) <-> In y l \/ y = x.
Proof.
  unfold append_if_absent. destruct (mem x l) eqn:E.
  - apply mem_In in E. split; [tauto|]. intros [H| ->]; assumption.
  - rewrite in_app_iff. simpl. split.
    + intros [H|[->|[]]]; auto.
    + intros [H| ->]; auto.
Qed.

Lemma append_if_absent_NoDup x l : NoDup l -> NoDup (append_if_absent x l).
Proof.
  intros H. unfold append_if_absent. destruct (mem x l) eqn:E; [assumption|].
  apply mem_false in E. apply NoDup_app; [assumption | repeat constructor; simpl; tauto |].
  intros a Ha [->|[]]. contradiction.
Qed.

Lemma NoDup_map_filter {A B} (f : A -> B) (g : A -> bool) l :
  NoDup (map f l) -> NoDup (map f (filter g l)).
Proof.
  induction l as [|a l IH]; simpl; [trivial|].
  intros H. inversion H as [|? ? Hn Hl]; subst.
  destruct (g a); simpl; [|auto].
  constructor; [|auto]. rewrite in_map_iff in *.
  intros (b & Eb & Hb). apply Hn. exists b. split; [assumption|].
  apply filter_In in Hb. tauto.
Qed.

Lemma NoDup_map_inj {A B} (f : A -> B) l x y :
  NoDup (map f l) -> In x l -> In y l -> f x = f y -> x = y.
Proof.
  induction l as [|a l IH]; simpl; [tauto|].
  intros H. inversion H as [|? ? Hn Hl]; subst.
  intros [->|Hx] [->|Hy] E; auto.
  - exfalso. apply Hn. rewrite E. now apply in_map.
  - exfalso. apply Hn. rewrite <- E. now apply in_map.
Qed.

Lemma NoDup_map_lower_keys l : NoDup (map lower l) -> NoDup l.
Proof.
  induction l as [|a l IH]; simpl; intros H; [constructor|].
  inversion H as [|? ? Hn Hl]; subst. constructor; [|auto].
  intros Ha. apply Hn. now apply in_map.
Qed.

Lemma dict_del_In {V} k k' v (d : dict V) :
  In (k', v) (dict_del k d) <-> In (k', v) d /\ k' <> k.
Proof.
  unfold dict_del. rewrite filter_In. simpl.
  rewrite negb_true_iff, String.eqb_neq. tauto.
Qed.

Lemma dict_del_get {V} k (d : dict V) : dict_get k (dict_del k d) = None.
Proof.
  induction d as [|[k' v'] d IH]; simpl; [reflexivity|].
  destruct (String.eqb k' k) eqn:E; simpl; [assumption|]. now rewrite E.
Qed.

Lemma dict_set_absent {V} k v (d : dict V) :
  dict_get k d = None -> dict_set k v d = d ++ [(k, v)].
Proof.
  induction d as [|[k' v'] d IH]; simpl; [reflexivity|].
  destruct (String.eqb k' k); [discriminate|]. intros H. now rewrite IH.
Qed.


Lemma In_dict_get {V} k v (d : dict V) :
  NoDup (keys d) -> In (k, v) d -> dict_get k d = Some v.
Proof.
  unfold keys. induction d as [|[k' v'] d IH]; simpl; [tauto|].
  intros H. inversion H as [|? ? Hn Hl]; subst.
  intros [[= -> ->]|Hin].
  - now rewrite String.eqb_refl.
  - destruct (String.eqb k' k) eqn:E; [|auto].
    apply String.eqb_eq in E. subst. exfalso. apply Hn.
    change k with (fst (k, v)). now apply in_map.
Qed.

Lemma find_ci_get {V} card k v (d : dict V) :
  find_ci card d = Some (k, v) ->
  dict_get k d = Some v /\ lower k = lower card.
Proof.
  unfold find_ci. induction d as [|[k' v'] d IH]; simpl; [discriminate|].
  destruct (String.eqb (lower k') (lower card)) eqn:E.
  - intros [= -> ->]. rewrite String.eqb_refl.
    apply String.eqb_eq in E. auto.
  - intros H. destruct (IH H) as [Hg Hl]. split; [|assumption].
    destruct (String.eqb k' k) eqn:E'; [|assumption].
    apply String.eqb_eq in E'. subst k'. rewrite Hl, String.eqb_refl in E.
    discriminate.
Qed.

Lemma find_ci_none {V} card (d : dict V) :
  find_ci card d = None ->
  forall k, In k (keys d) -> lower k <> lower card.
Proof.
  unfold find_ci, keys. intros H k Hk. apply in_map_iff in Hk.
  destruct Hk as ([k' v] & <- & Hin).
  apply (find_none _ _ H) in Hin. simpl in *. now apply String.eqb_neq.
Qed.

Lemma resolve_active_get card k info (ac : dict Assignment.t) :
  resolve_active card ac = Some (k, info) ->
  dict_get k ac = Some info /\ lower k = lower card.
Proof.
  unfold resolve_active. destruct (dict_get card ac) as [i|] eqn:E.
  - intros [= <- <-]. auto.
  - apply find_ci_get.
Qed.

Lemma resolve_active_none card (ac : dict Assignment.t) :
  resolve_active card ac = None <->
  forall k, In k (keys ac) -> lower k <> lower card.
Proof.
  unfold resolve_active. split.
  - destruct (dict_get card ac); [discriminate|]. apply find_ci_none.
  - intros H. destruct (dict_get card ac) as [i|] eqn:E.
    + apply dict_get_In in E. exfalso. apply (H card); [|reflexivity].
      unfold keys. change card with (fst (card, i)). now apply in_map.
    + unfold find_ci. destruct (find _ ac) as [[k v]|] eqn:F; [|reflexivity].
      apply find_some in F. destruct F as [Hin Hl]. simpl in Hl.
      apply String.eqb_eq in Hl. exfalso. apply (H k); [|assumption].
      unfold keys. change k with (fst (k, v)). now apply in_map.
Qed.

(** ** Transactions *)

Lemma complete_first_none p now ts :
  complete_first p now ts = None <-> Forall (fun t => p t = false) ts.
Proof.
  induction ts as [|t ts IH]; simpl.
  - split; [constructor | reflexivity].
  - destruct (p t) eqn:E.
    + split; [discriminate|]. intros H. inversion H; congruence.
    + destruct (complete_first p now ts) as [[u r]|].
      * split; [discriminate|]. intros H. inversion H; subst.
        destruct IH as [_ IH]. discriminate IH. assumption.
      * split; [|reflexivity]. intros _. constructor; [assumption|]. now apply IH.
Qed.

Lemma complete_first_ids p now ts u ts' :
  complete_first p now ts = Some (u, ts') ->
  map Transaction.transaction_id ts' = map Transaction.transaction_id ts.
Proof.
  revert ts'. induction ts as [|t ts IH]; simpl; intros ts'; [discriminate|].
  destruct (p t).
  - intros [= <- <-]. reflexivity.
  - destruct (complete_first p now ts) as [[u' r]|]; [|discriminate].
    intros [= <- <-]. simpl. f_equal. now apply IH.
Qed.

(** ** Effect of each operation on [self.data] *)

Lemma save_data_data o s : data (save_data o s) = data s.
Proof. reflexivity. Qed.

Lemma send_to_server_data ok a p s : data (fst (send_to_server ok a p s)) = data s.
Proof. reflexivity. Qed.

Lemma unlock_locker_data cfg l s : data (fst (unlock_locker cfg l s)) = data s.
Proof.
  unfold unlock_locker. destruct (dict_get l (relay_pins cfg)); reflexivity.
Qed.

Lemma assign_outcome env s card_id locker_id wash_type_id :
  let r := assign_card_to_locker env s card_id locker_id wash_type_id in
  (fst (snd r) = false /\ fst r = s)
  \/ (fst (snd r) = true
      /\ check_card_already_assigned (data s) (strip card_id) = false
      /\ In locker_id (available_lockers (data s))
      /\ exists selected,
          find (fun wt => wt_id_eqb (WashType.id wt) wash_type_id)
               (get_wash_types env) = Some selected
          /\ data (fst r)
             = assigned_data env (data s) (strip card_id) locker_id selected
          /\ gpio (fst r) = gpio s).
Proof.
  unfold assign_card_to_locker. cbv zeta.
  destruct (check_card_already_assigned (data s) (strip card_id)) eqn:C;
    [left; auto|].
  destruct (mem locker_id (available_lockers (data s))) eqn:M; cbn [negb];
    [|left; auto].
  destruct (find _ (get_wash_types env)) as [sel|] eqn:F; [|left; auto].
  right. split; [reflexivity|]. split; [reflexivity|].
  split; [now apply mem_In|]. exists sel. split; [reflexivity|].
  split; reflexivity.
Qed.

Lemma pickup_outcome cfg env s card_id :
  let r := process_pickup cfg env s card_id in
  match resolve_active card_id (active_cards (data s)) with
  | None => r = (s, (false, "Card not associated with any locker"))
  | Some (k, info) =>
      fst (snd r) = true /\
      match complete_first
              (fun t => String.eqb (Transaction.transaction_id t)
                                   (Assignment.transaction_id info))
              (now1 env) (transactions (data s)) with
      | Some (u, ts) =>
          data (fst r) = released_data (data s) k (Assignment.locker_id info) ts
      | None =>
          match complete_first
                  (fun t => String.eqb (Transaction.card_id t) k
                            && negb (is_completed (Transaction.status t)))
                  (now1 env) (transactions (data s)) with
          | Some (u, ts) =>
              data (fst r) = released_data (data s) k (Transaction.locker_id u) ts
          | None =>
              r = (release (save_outcome env) k (Assignment.locker_id info) s,
                   (true, ("Locker " ++ Assignment.locker_id info
                           ++ " unlocked and reset")%string))
          end
      end
  end.
Proof.
  unfold process_pickup. cbv zeta.
  destruct (resolve_active card_id (active_cards (data s))) as [[k info]|] eqn:R;
    [|reflexivity].
  apply resolve_active_get in R. destruct R as [G _].
  destruct (complete_first _ (now1 env) (transactions (data s))) as [[u ts]|].
  - split; [reflexivity|]. cbn [fst snd]. rewrite send_to_server_data.
    unfold release. rewrite save_data_data. unfold with_data. cbn [data].
    rewrite unlock_locker_data. reflexivity.
  - destruct (complete_first _ (now1 env) (transactions (data s))) as [[u ts]|].
    + split; [reflexivity|]. cbn [fst snd].
      unfold release. rewrite save_data_data. unfold with_data. cbn [data].
      rewrite unlock_locker_data. reflexivity.
    + rewrite G. split; reflexivity.
Qed.

(** ** Assignment *)

Lemma check_card_already_assigned_false d card_id :
  check_card_already_assigned d (strip card_id) = false ->
  dict_get (strip card_id) (active_cards d) = None
  /\ ~ In (lower (strip card_id)) (map lower (keys (active_cards d))).
Proof.
  unfold check_card_already_assigned. rewrite strip_idempotent.
  destruct (dict_mem (strip card_id) (active_cards d)) eqn:M; [discriminate|].
  destruct (existsb _ (keys (active_cards d))) eqn:E; [discriminate|].
  intros _. split; [now apply dict_get_not_mem|].
  intros Hin. apply in_map_iff in Hin. destruct Hin as (k & Hk & Hin).
  assert (X : existsb (fun active_card =>
                String.eqb (lower active_card) (lower (strip card_id)))
               (keys (active_cards d)) = true).
  { apply existsb_exists. exists k. split; [assumption|]. now apply String.eqb_eq. }
  congruence.
Qed.

(** C3. [assign_card_to_locker] tests, in this order, that the card has no
    assignment (its key is in [active_cards]; else some key equals it up to
    case; else some transaction that is not completed carries it), that the
    locker is in the pool, and that the wash type is in the catalog.  The
    first test that fails decides the message, and every failed call returns
    the system as it received it.  The [/api/drop-off] route, which chooses
    the locker itself, runs the same three tests in the same order (no
    assignment, pool not empty, wash type resolved) and likewise changes
    nothing when it answers with a failure. *)
Theorem assign_preconditions_in_order (env : Env) (s : System)
  (card_id locker_id : string) (wash_type_id : wt_id) :
  let d := data s in
  let r := assign_card_to_locker env s card_id locker_id wash_type_id in
  check_card_already_assigned d (strip card_id)
  = (dict_mem (strip card_id) (active_cards d)
     || existsb (fun k => String.eqb (lower k) (lower (strip card_id)))
                (keys (active_cards d))
     || existsb (fun t =>
                   negb (is_completed (Transaction.status t))
                   && String.eqb (lower (strip (Transaction.card_id t)))
                                 (lower (strip card_id)))
                (transactions d))
  /\ (check_card_already_assigned d (strip card_id) = true ->
      r = (s, (false, "Card already assigned to another locker")))
  /\ (check_card_already_assigned d (strip card_id) = false ->
      mem locker_id (available_lockers d) = false ->
      r = (s, (false, "Locker not available")))
  /\ (check_card_already_assigned d (strip card_id) = false ->
      mem locker_id (available_lockers d) = true ->
      find (fun wt => wt_id_eqb (WashType.id wt) wash_type_id)
           (get_wash_types env) = None ->
      r = (s, (false, "Invalid wash type")))
  /\ (fst (snd r) = false -> fst r = s)
  /\ (forall cfg catalog wash_type_param,
      let r' := drop_off cfg env catalog s
                  (mkRequest (Some card_id) (Some wash_type_param)) in
      (check_card_already_assigned d (strip card_id) = true ->
       success (snd r') = false /\ fst r' = s)
      /\ (check_card_already_assigned d (strip card_id) = false ->
          available_lockers d = [] ->
          r' = (s, failure "No lockers available"))
      /\ (check_card_already_assigned d (strip card_id) = false ->
          available_lockers d <> [] ->
          forall msg, resolve_wash_type catalog wash_type_param = inl msg ->
          r' = (s, failure msg))
      /\ (success (snd r') = false -> fst r' = s)).
Proof.
  intros d r. subst d.
  split; [|split; [|split; [|split; [|split]]]].
  - unfold check_card_already_assigned. rewrite strip_idempotent.
    destruct (dict_mem _ _); [reflexivity|].
    destruct (existsb _ (keys _)); reflexivity.
  - intros C. subst r. unfold assign_card_to_locker. now rewrite C.
  - intros C M. subst r. unfold assign_card_to_locker. cbv zeta.
    now rewrite C, M.
  - intros C M F. subst r. unfold assign_card_to_locker. cbv zeta.
    now rewrite C, M, F.
  - intros Hf. subst r.
    destruct (assign_outcome env s card_id locker_id wash_type_id)
      as [[_ E]|[Ht _]]; [assumption | congruence].
  - intros cfg catalog wp r'. subst r'. unfold drop_off. cbn [req_card_id req_wash_type].
    destruct (check_card_already_assigned (data s) (strip card_id)) eqn:C.
    { repeat split; auto; discriminate. }
    destruct (available_lockers (data s)) as [|l rest] eqn:A.
    { repeat split; auto; try discriminate. congruence. }
    destruct (resolve_wash_type catalog wp) as [msg|wid] eqn:W.
    { repeat split; auto; try discriminate. intros _ _ m [= <-]. reflexivity. }
    split; [discriminate|]. split; [discriminate|]. split; [discriminate|].
    destruct (assign_outcome env s card_id l wid) as [[Hf E]|[Ht _]].
    + destruct (assign_card_to_locker env s card_id l wid) as [s1 [ok msg]].
      simpl in *. subst. reflexivity.
    + destruct (assign_card_to_locker env s card_id l wid) as [s1 [ok msg]].
      simpl in *. subst. simpl. discriminate.
Qed.

Lemma assign_preconditions_in_order_witness :
  let s := mkSystem (mkData [("A1", Assignment.mk "1" "u1")]
                            [LockerTransaction (mkEnv "u1" 0 0 DEFAULT_WASH_TYPES SaveOk true)
                                               "A1" "1" None]
                            ["2"]) None [] [] in
  assign_card_to_locker (mkEnv "u2" 5 5 DEFAULT_WASH_TYPES SaveOk true) s
                        " a1 " "2" (IdInt 1)
  = (s, (false, "Card already assigned to another locker")).
Proof.
  apply (proj1 (proj2 (assign_preconditions_in_order
                         (mkEnv "u2" 5 5 DEFAULT_WASH_TYPES SaveOk true)
                         (mkSystem
                            (mkData [("A1", Assignment.mk "1" "u1")]
                               [LockerTransaction
                                  (mkEnv "u1" 0 0 DEFAULT_WASH_TYPES SaveOk true)
                                  "A1" "1" None]
                               ["2"]) None [] [])
                         " a1 " "2" (IdInt 1)))).
  vm_compute. reflexivity.
Defined.




(** ** Persistence and telemetry *)

(** C8. For every starting state and every request, the result returned
    by [assign_card_to_locker], by the drop-off route and by
    [process_pickup], the content of [self.data] afterwards and the
    actuator trace are the same whatever the outcome of the file write and
    of the post to the server; only the file and the server's inbox differ.
    So a failed write keeps the mutation and the answer (the file is left as
    it was when it could not be opened), and a failed post is not visible to
    the caller. *)
Theorem outcomes_do_not_change_results (cfg : Config) (env : Env)
  (o : SaveOutcome) (sent : bool) (s : System) :
  (forall card_id locker_id wash_type_id,
      let r := assign_card_to_locker env s card_id locker_id wash_type_id in
      let r' := assign_card_to_locker (with_outcomes env o sent) s
                  card_id locker_id wash_type_id in
      snd r' = snd r /\ data (fst r') = data (fst r) /\ gpio (fst r') = gpio (fst r))
  /\ (forall catalog req,
      let r := drop_off cfg env catalog s req in
      let r' := drop_off cfg (with_outcomes env o sent) catalog s req in
      snd r' = snd r /\ data (fst r') = data (fst r) /\ gpio (fst r') = gpio (fst r))
  /\ (forall card_id,
      let r := process_pickup cfg env s card_id in
      let r' := process_pickup cfg (with_outcomes env o sent) s card_id in
      snd r' = snd r /\ data (fst r') = data (fst r) /\ gpio (fst r') = gpio (fst r))
  /\ (forall card_id locker_id wash_type_id,
      disk (fst (assign_card_to_locker (with_outcomes env SaveOpenFails sent) s
                   card_id locker_id wash_type_id)) = disk s)
  /\ (forall card_id,
      disk (fst (process_pickup cfg (with_outcomes env SaveOpenFails sent) s
                   card_id)) = disk s).
Proof.
  assert (A : forall card_id locker_id wash_type_id,
      let r := assign_card_to_locker env s card_id locker_id wash_type_id in
      let r' := assign_card_to_locker (with_outcomes env o sent) s
                  card_id locker_id wash_type_id in
      snd r' = snd r /\ data (fst r') = data (fst r) /\ gpio (fst r') = gpio (fst r)).
  { intros c l w. unfold assign_card_to_locker. cbv zeta.
    destruct (check_card_already_assigned _ _); [auto|].
    destruct (negb _); [auto|]. cbn [get_wash_types with_outcomes].
    destruct (find _ (get_wash_types env)); auto. }
  split; [exact A|]. split; [|split; [|split]].
  - intros catalog req. unfold drop_off.
    destruct (req_card_id req) as [raw|]; [|auto].
    destruct (req_wash_type req) as [wp|]; [|auto].
    destruct (check_card_already_assigned _ _); [auto|].
    destruct (available_lockers (data s)) as [|l rest]; [auto|].
    destruct (resolve_wash_type catalog wp) as [msg|wid]; [auto|].
    specialize (A raw l wid). cbv zeta in A.
    destruct (assign_card_to_locker env s raw l wid) as [s1 [ok m]].
    destruct (assign_card_to_locker (with_outcomes env o sent) s raw l wid)
      as [s1' [ok' m']].
    cbn [fst snd] in A. destruct A as ([= -> ->] & Hd & Hg).
    destruct ok; cbn [fst snd]; [|auto].
    split; [reflexivity|]. rewrite !unlock_locker_data. split; [assumption|].
    unfold unlock_locker. destruct (dict_get l (relay_pins cfg)); cbn [fst gpio];
      now rewrite Hg.
  - intros card_id. unfold process_pickup. cbv zeta.
    destruct (resolve_active _ _) as [[k info]|]; [|auto].
    cbn [now1 with_outcomes save_outcome send_outcome].
    destruct (complete_first _ (now1 env) (transactions (data s))) as [[u ts]|];
      [auto|].
    destruct (complete_first _ (now1 env) (transactions (data s))) as [[u ts]|];
      [auto|].
    destruct (dict_get k (active_cards (data s))); auto.
  - intros c l w. unfold assign_card_to_locker. cbv zeta.
    destruct (check_card_already_assigned _ _); [auto|].
    destruct (negb _); [auto|]. cbn [get_wash_types with_outcomes].
    destruct (find _ (get_wash_types env)); auto.
  - intros card_id. unfold process_pickup. cbv zeta.
    destruct (resolve_active _ _) as [[k info]|]; [|auto].
    cbn [now1 with_outcomes save_outcome send_outcome].
    destruct (complete_first _ (now1 env) (transactions (data s))) as [[u ts]|].
    { cbn. unfold unlock_locker.
      destruct (dict_get _ (relay_pins cfg)); reflexivity. }
    destruct (complete_first _ (now1 env) (transactions (data s))) as [[u ts]|].
    { cbn. unfold unlock_locker.
      destruct (dict_get _ (relay_pins cfg)); reflexivity. }
    destruct (dict_get k (active_cards (data s))); reflexivity.
Qed.

(** ** Pickup *)

(** C6. When the presented card resolves to an assignment, no transaction
    carries the transaction id recorded there, and every transaction of that
    card is completed, [process_pickup] deletes the assignment, puts the
    recorded locker back in the pool (appended when it was absent), leaves
    the transaction list as it was, drives no actuator, and reports success
    with the message of the forced reset. *)
Theorem pickup_force_reset (cfg : Config) (env : Env) (s : System)
  (card_id k : string) (info : Assignment.t) :
  resolve_active card_id (active_cards (data s)) = Some (k, info) ->
  (forall t, In t (transactions (data s)) ->
             Transaction.transaction_id t <> Assignment.transaction_id info) ->
  (forall t, In t (transactions (data s)) ->
             Transaction.card_id t = k -> Transaction.status t = completed) ->
  let r := process_pickup cfg env s card_id in
  let locker_id := Assignment.locker_id info in
  snd r = (true, ("Locker " ++ locker_id ++ " unlocked and reset")%string)
  /\ active_cards (data (fst r)) = dict_del k (active_cards (data s))
  /\ dict_get k (active_cards (data (fst r))) = None
  /\ available_lockers (data (fst r))
     = append_if_absent locker_id (available_lockers (data s))
  /\ In locker_id (available_lockers (data (fst r)))
  /\ transactions (data (fst r)) = transactions (data s)
  /\ gpio (fst r) = gpio s.
Proof.
  intros R Hid Hcard r locker_id.
  pose proof (pickup_outcome cfg env s card_id) as P. cbv zeta in P.
  fold r in P. rewrite R in P. destruct P as [_ P].
  assert (N1 : complete_first
                 (fun t => String.eqb (Transaction.transaction_id t)
                                      (Assignment.transaction_id info))
                 (now1 env) (transactions (data s)) = None).
  { apply complete_first_none, Forall_forall. intros t Ht.
    apply String.eqb_neq. now apply Hid. }
  assert (N2 : complete_first
                 (fun t => String.eqb (Transaction.card_id t) k
                           && negb (is_completed (Transaction.status t)))
                 (now1 env) (transactions (data s)) = None).
  { apply complete_first_none, Forall_forall. intros t Ht.
    destruct (String.eqb (Transaction.card_id t) k) eqn:E; [|reflexivity].
    apply String.eqb_eq in E. rewrite (Hcard t Ht E). reflexivity. }
  rewrite N1, N2 in P. rewrite P. cbn [fst snd]. fold locker_id.
  unfold release. rewrite save_data_data. unfold with_data. cbn.
  repeat split.
  - apply dict_del_get.
  - apply append_if_absent_In. now right.
Qed.

Lemma pickup_force_reset_witness :
  let s := mkSystem (mkData [("ab", Assignment.mk "1" "lost")] [] ["2"])
                    None [] [] in
  let r := process_pickup DEFAULT_CONFIG
             (mkEnv "u" 7 7 DEFAULT_WASH_TYPES SaveOk true) s "AB" in
  snd r = (true, "Locker 1 unlocked and reset")
  /\ active_cards (data (fst r)) = []
  /\ dict_get "ab" (active_cards (data (fst r))) = None
  /\ available_lockers (data (fst r)) = ["2"; "1"]
  /\ In "1" (available_lockers (data (fst r)))
  /\ transactions (data (fst r)) = []
  /\ gpio (fst r) = [].
Proof.
  apply (pickup_force_reset DEFAULT_CONFIG
           (mkEnv "u" 7 7 DEFAULT_WASH_TYPES SaveOk true)
           (mkSystem (mkData [("ab", Assignment.mk "1" "lost")] [] ["2"]) None [] [])
           "AB" "ab" (Assignment.mk "1" "lost")).
  - reflexivity.
  - intros t [].
  - intros t [].
Defined.

(** ** Invariants of the reachable states *)

Lemma occupied_In d l :
  occupied d l <->
  In l (map (fun p => Assignment.locker_id (snd p)) (active_cards d)).
Proof.
  unfold occupied. rewrite in_map_iff. split.
  - intros (k & a & Hin & E). exists (k, a). auto.
  - intros ([k a] & E & Hin). exists k, a. auto.
Qed.

Lemma assign_data_cases env s card_id locker_id wash_type_id :
  let r := assign_card_to_locker env s card_id locker_id wash_type_id in
  data (fst r) = data s
  \/ (check_card_already_assigned (data s) (strip card_id) = false
      /\ In locker_id (available_lockers (data s))
      /\ exists selected,
          data (fst r)
          = assigned_data env (data s) (strip card_id) locker_id selected).
Proof.
  intros r. subst r.
  destruct (assign_outcome env s card_id locker_id wash_type_id)
    as [[_ E]|(_ & C & A & sel & _ & E & _)].
  - left. now rewrite E.
  - right. eauto.
Qed.

Lemma drop_off_data_cases cfg env catalog s req :
  data (fst (drop_off cfg env catalog s req)) = data s
  \/ exists card_id locker_id wash_type_id,
      data (fst (drop_off cfg env catalog s req))
      = data (fst (assign_card_to_locker env s card_id locker_id wash_type_id)).
Proof.
  unfold drop_off.
  destruct (req_card_id req) as [raw|]; [|now left].
  destruct (req_wash_type req) as [wp|]; [|now left].
  destruct (check_card_already_assigned _ _); [now left|].
  destruct (available_lockers (data s)) as [|l rest]; [now left|].
  destruct (resolve_wash_type catalog wp) as [msg|wid]; [now left|].
  right. exists raw, l, wid.
  destruct (assign_card_to_locker env s raw l wid) as [s1 [ok m]].
  destruct ok; cbn [fst]; [apply unlock_locker_data | reflexivity].
Qed.

Lemma pickup_data_cases cfg env s card_id :
  let r := process_pickup cfg env s card_id in
  data (fst r) = data s
  \/ exists k info,
      dict_get k (active_cards (data s)) = Some info
      /\ ((exists ts,
              map Transaction.transaction_id ts
              = map Transaction.transaction_id (transactions (data s))
              /\ data (fst r)
                 = released_data (data s) k (Assignment.locker_id info) ts)
          \/ (~ In (Assignment.transaction_id info)
                   (map Transaction.transaction_id (transactions (data s)))
              /\ exists l ts, data (fst r) = released_data (data s) k l ts)).
Proof.
  intros r. pose proof (pickup_outcome cfg env s card_id) as P.
  cbv zeta in P. fold r in P.
  destruct (resolve_active card_id (active_cards (data s))) as [[k info]|] eqn:R.
  2:{ left. now rewrite P. }
  right. exists k, info. apply resolve_active_get in R. destruct R as [G _].
  split; [assumption|]. destruct P as [_ P].
  destruct (complete_first _ (now1 env) (transactions (data s)))
    as [[u ts]|] eqn:C1.
  - left. exists ts. split; [|assumption]. eapply complete_first_ids, C1.
  - right. split.
    + apply complete_first_none in C1. rewrite Forall_forall in C1.
      intros Hin. apply in_map_iff in Hin. destruct Hin as (t & E & Ht).
      specialize (C1 t Ht). simpl in C1. rewrite E, String.eqb_refl in C1.
      discriminate.
    + clear C1. revert P.
      destruct (complete_first _ (now1 env) (transactions (data s)))
        as [[u ts]|]; intros P; [eauto|].
      rewrite P. cbn [fst]. unfold release. rewrite save_data_data.
      unfold with_data. cbn [data]. unfold released_data. eauto.
Qed.

Lemma keys_dict_del_distinct {V} k (d : dict V) :
  keys_distinct_ci d -> keys_distinct_ci (dict_del k d).
Proof.
  unfold keys_distinct_ci, keys, dict_del. rewrite !map_map.
  apply NoDup_map_filter.
Qed.

Lemma assigned_cards_distinct env d card_id locker_id sel :
  keys_distinct_ci (active_cards d) ->
  check_card_already_assigned d (strip card_id) = false ->
  keys_distinct_ci
    (active_cards (assigned_data env d (strip card_id) locker_id sel)).
Proof.
  intros H C. apply check_card_already_assigned_false in C.
  destruct C as [G N]. unfold assigned_data. cbn [active_cards].
  rewrite (dict_set_absent _ _ _ G).
  unfold keys_distinct_ci, keys in *. rewrite !map_app. simpl.
  apply NoDup_app; [assumption | repeat constructor; simpl; tauto |].
  intros a Ha [<-|[]]. contradiction.
Qed.

Lemma step_cards_distinct cfg s s' :
  step cfg s s' ->
  keys_distinct_ci (active_cards (data s)) ->
  keys_distinct_ci (active_cards (data s')).
Proof.
  assert (A : forall env c l w,
             keys_distinct_ci (active_cards (data s)) ->
             keys_distinct_ci
               (active_cards (data (fst (assign_card_to_locker env s c l w))))).
  { intros env c l w H.
    destruct (assign_data_cases env s c l w) as [E|(C & _ & sel & E)];
      rewrite E; [assumption|]. now apply assigned_cards_distinct. }
  intros St H. destruct St as [env catalog s req | env s c l w | env s c].
  - destruct (drop_off_data_cases cfg env catalog s req) as [E|(c & l & w & E)];
      rewrite E; auto.
  - auto.
  - destruct (pickup_data_cases cfg env s c)
      as [E|(k & info & _ & [(ts & _ & E)|(_ & l & ts & E)])];
      rewrite E; [assumption| |]; now apply keys_dict_del_distinct.
Qed.

Lemma reachable_cards_distinct cfg s :
  reachable cfg s -> keys_distinct_ci (active_cards (data s)).
Proof.
  induction 1 as [s [Ha _]|s s' _ IH St].
  - rewrite Ha. constructor.
  - eapply step_cards_distinct; eassumption.
Qed.

Lemma pickup_unresolved cfg env s card_id :
  resolve_active card_id (active_cards (data s)) = None ->
  process_pickup cfg env s card_id
  = (s, (false, "Card not associated with any locker")).
Proof.
  intros R. unfold process_pickup. now rewrite R.
Qed.

Lemma resolve_after_delete card_id k info (ac : dict Assignment.t) :
  keys_distinct_ci ac ->
  resolve_active card_id ac = Some (k, info) ->
  resolve_active card_id (dict_del k ac) = None.
Proof.
  intros ND R. apply resolve_active_get in R. destruct R as [G L].
  apply resolve_active_none. intros k' Hk' E.
  unfold keys in Hk'. apply in_map_iff in Hk'.
  destruct Hk' as ([k2 v] & <- & Hin). simpl in E.
  apply dict_del_In in Hin. destruct Hin as [Hin Hne]. apply Hne.
  apply (NoDup_map_inj lower (keys ac)); [exact ND | | | congruence].
  - unfold keys. change k2 with (fst (k2, v)). now apply in_map.
  - apply dict_get_In in G. unfold keys. change k with (fst (k, info)).
    now apply in_map.
Qed.

Lemma second_pickup_rejected_distinct cfg env1 env2 s card_id :
  keys_distinct_ci (active_cards (data s)) ->
  second_pickup_rejected cfg env1 env2 s card_id.
Proof.
  intros ND. unfold second_pickup_rejected. cbv zeta. intros Hok.
  apply pickup_unresolved.
  pose proof (pickup_outcome cfg env1 s card_id) as P. cbv zeta in P.
  destruct (resolve_active card_id (active_cards (data s))) as [[k info]|] eqn:R.
  2:{ rewrite P in Hok. discriminate. }
  pose proof (resolve_after_delete _ _ _ _ ND R) as N.
  destruct P as [_ P].
  destruct (complete_first _ (now1 env1) (transactions (data s))) as [[u ts]|].
  { rewrite P. exact N. }
  destruct (complete_first _ (now1 env1) (transactions (data s))) as [[u ts]|].
  { rewrite P. exact N. }
  rewrite P. exact N.
Qed.

(** C5, as the program has it.  A second [process_pickup] for the
    same card right after a successful one is rejected (failure, "Card not
    associated with any locker") with the system untouched, provided that no
    two keys of [active_cards] are equal up to case, which is so in every
    state reached from an initial state through drop-offs, assignments and
    pickups. *)
Theorem second_pickup_is_rejected :
  (forall cfg env1 env2 s card_id,
      keys_distinct_ci (active_cards (data s)) ->
      second_pickup_rejected cfg env1 env2 s card_id)
  /\ (forall cfg env1 env2 s card_id,
      reachable cfg s ->
      second_pickup_rejected cfg env1 env2 s card_id).
Proof.
  split.
  - intros. now apply second_pickup_rejected_distinct.
  - intros cfg env1 env2 s card_id Hr.
    apply second_pickup_rejected_distinct.
    eapply reachable_cards_distinct, Hr.
Qed.

Lemma second_pickup_is_rejected_witness :
  let env := mkEnv "u1" 1000 1001 DEFAULT_WASH_TYPES SaveOk true in
  let s := mkSystem
             (mkData [("A1", Assignment.mk "1" "u1")]
                     [LockerTransaction env "A1" "1" None]
                     ["2"]) None [] [] in
  let r1 := process_pickup DEFAULT_CONFIG env s "A1" in
  process_pickup DEFAULT_CONFIG env (fst r1) "A1"
  = (fst r1, (false, "Card not associated with any locker")).
Proof.
  apply (proj1 second_pickup_is_rejected DEFAULT_CONFIG
           (mkEnv "u1" 1000 1001 DEFAULT_WASH_TYPES SaveOk true)
           (mkEnv "u1" 1000 1001 DEFAULT_WASH_TYPES SaveOk true)
           (mkSystem
              (mkData [("A1", Assignment.mk "1" "u1")]
                      [LockerTransaction
                         (mkEnv "u1" 1000 1001 DEFAULT_WASH_TYPES SaveOk true)
                         "A1" "1" None]
                      ["2"]) None [] [])
           "A1").
  - unfold keys_distinct_ci. simpl. repeat constructor. simpl. tauto.
  - reflexivity.
Defined.

(** C5 as stated does not hold in every state: when [active_cards] has the
    keys "ab" and "AB", the first pickup of "ab" removes the key "ab" and
    the second pickup of "ab" resolves, up to case, to the key "AB" and
    succeeds as well. *)
Lemma second_pickup_accepted_counterexample :
  ~ second_pickup_rejected DEFAULT_CONFIG
      (mkEnv "u" 10 10 DEFAULT_WASH_TYPES SaveOk true)
      (mkEnv "u" 20 20 DEFAULT_WASH_TYPES SaveOk true)
      (mkSystem
         (mkData [("ab", Assignment.mk "1" "t1"); ("AB", Assignment.mk "2" "t2")]
                 [Transaction.mk "t1" "ab" "1" None pending 0 None None [];
                  Transaction.mk "t2" "AB" "2" None pending 1 None None []]
                 [])
         None [] [])
      "ab".
Proof.
  unfold second_pickup_rejected. cbv zeta. intros H.
  specialize (H eq_refl). vm_compute in H. discriminate H.
Qed.

Lemma initial_consistent cfg s :
  NoDup (keys (relay_pins cfg)) -> initial cfg s -> consistent cfg (data s).
Proof.
  intros ND [Ha Hp]. constructor; unfold free, occupied, keys_distinct_ci;
    rewrite ?Ha, ?Hp; simpl.
  - assumption.
  - constructor.
  - constructor.
  - intros l _ (k & a & [] & _).
  - intros l. split; [auto|]. intros [H|(k & a & [] & _)]. assumption.
  - intros k a [].
Qed.

Lemma assigned_consistent cfg env d card_id locker_id sel :
  consistent cfg d ->
  check_card_already_assigned d (strip card_id) = false ->
  In locker_id (available_lockers d) ->
  consistent cfg (assigned_data env d (strip card_id) locker_id sel).
Proof.
  intros [Hp Hc Hl Hd Hcov Htx] C Hfree.
  pose proof (check_card_already_assigned_false _ _ C) as [G _].
  assert (Hnocc : ~ occupied d locker_id) by (now apply Hd).
  assert (Eact : active_cards (assigned_data env d (strip card_id) locker_id sel)
                 = active_cards d
                     ++ [(strip card_id, Assignment.mk locker_id (uuid4 env))]).
  { unfold assigned_data. cbn [active_cards]. now apply dict_set_absent. }
  assert (Hocc : forall l,
             occupied (assigned_data env d (strip card_id) locker_id sel) l
             <-> occupied d l \/ l = locker_id).
  { intros l. rewrite !occupied_In, Eact, map_app, in_app_iff. simpl.
    intuition congruence. }
  constructor.
  - cbn. now apply remove_first_NoDup.
  - now apply assigned_cards_distinct.
  - rewrite Eact, map_app. simpl.
    apply NoDup_app; [assumption | repeat constructor; simpl; tauto |].
    intros a Ha [<-|[]]. apply Hnocc. now apply occupied_In.
  - intros l Hf. unfold free in Hf. cbn in Hf.
    apply (remove_first_spec _ _ _ Hp) in Hf. destruct Hf as [Hin Hne].
    rewrite Hocc. intros [Ho|E]; [|contradiction]. exact (Hd l Hin Ho).
  - intros l. rewrite Hcov, Hocc. unfold free. cbn [available_lockers assigned_data].
    rewrite (remove_first_spec _ _ _ Hp).
    destruct (string_dec l locker_id) as [->|Hne]; tauto.
  - intros k a Hin. rewrite Eact in Hin. cbn [transactions assigned_data].
    rewrite map_app, in_app_iff. apply in_app_or in Hin.
    destruct Hin as [Hin|[[= <- <-]|[]]].
    + left. eapply Htx, Hin.
    + right. simpl. now left.
Qed.

Lemma released_consistent cfg d k info ts :
  consistent cfg d ->
  dict_get k (active_cards d) = Some info ->
  map Transaction.transaction_id ts
  = map Transaction.transaction_id (transactions d) ->
  consistent cfg (released_data d k (Assignment.locker_id info) ts).
Proof.
  intros [Hp Hc Hl Hd Hcov Htx] G Hids.
  pose proof (dict_get_In _ _ _ G) as Hin.
  assert (Hk : NoDup (keys (active_cards d)))
    by (apply NoDup_map_lower_keys, Hc).
  assert (Hocc : forall l,
             occupied (released_data d k (Assignment.locker_id info) ts) l
             <-> exists k' a, In (k', a) (active_cards d) /\ k' <> k
                              /\ Assignment.locker_id a = l).
  { intros l. unfold occupied. cbn [active_cards released_data]. split.
    - intros (k' & a & H & E). apply dict_del_In in H. exists k', a. tauto.
    - intros (k' & a & H & Hne & E). exists k', a. rewrite dict_del_In. tauto. }
  assert (Hsame : forall k' a,
             In (k', a) (active_cards d) ->
             Assignment.locker_id a = Assignment.locker_id info -> k' = k).
  { intros k' a H E.
    assert (X : (k', a) = (k, info)).
    { apply (NoDup_map_inj (fun p => Assignment.locker_id (snd p))
                           (active_cards d)); auto. }
    congruence. }
  constructor.
  - cbn. now apply append_if_absent_NoDup.
  - cbn. now apply keys_dict_del_distinct.
  - cbn. unfold dict_del. now apply NoDup_map_filter.
  - intros l Hf. unfold free in Hf. cbn in Hf.
    apply append_if_absent_In in Hf. rewrite Hocc.
    intros (k' & a & H & Hne & E). destruct Hf as [Hf| ->].
    + apply (Hd l Hf). exists k', a. auto.
    + apply Hne. eapply Hsame; eassumption.
  - intros l. rewrite Hcov, Hocc. unfold free.
    cbn [available_lockers released_data]. rewrite append_if_absent_In.
    split.
    + intros [Hf|(k' & a & H & E)]; [tauto|].
      destruct (string_dec k' k) as [->|Hne].
      * left. right. rewrite (In_dict_get _ _ _ Hk H) in G.
        injection G as <-. now symmetry.
      * right. exists k', a. auto.
    + intros [[Hf| ->]|(k' & a & H & _ & E)].
      * now left.
      * right. exists k, info. auto.
      * right. exists k', a. auto.
  - intros k' a H. cbn in H. apply dict_del_In in H. destruct H as [H _].
    cbn [transactions released_data]. rewrite Hids. eapply Htx, H.
Qed.

Lemma step_consistent cfg s s' :
  step cfg s s' -> consistent cfg (data s) -> consistent cfg (data s').
Proof.
  assert (A : forall env c l w,
             consistent cfg (data s) ->
             consistent cfg (data (fst (assign_card_to_locker env s c l w)))).
  { intros env c l w H.
    destruct (assign_data_cases env s c l w) as [E|(C & Hin & sel & E)];
      rewrite E; [assumption|]. now apply assigned_consistent. }
  intros St H. destruct St as [env catalog s req | env s c l w | env s c].
  - destruct (drop_off_data_cases cfg env catalog s req) as [E|(c & l & w & E)];
      rewrite E; auto.
  - auto.
  - destruct (pickup_data_cases cfg env s c)
      as [E|(k & info & G & [(ts & Hids & E)|(Hno & _)])].
    + now rewrite E.
    + rewrite E. now apply released_consistent.
    + exfalso. apply Hno.
      eapply (assignment_has_transaction _ _ H), dict_get_In, G.
Qed.

Lemma reachable_consistent cfg s :
  NoDup (keys (relay_pins cfg)) -> reachable cfg s -> consistent cfg (data s).
Proof.
  intros ND. induction 1 as [s Hi|s s' _ IH St].
  - now apply initial_consistent.
  - eapply step_consistent; eassumption.
Qed.

(** C9. In every state reached from an initial state (all configured
    lockers in the pool, no active card) by drop-offs, assignments and
    pickups, a configured locker is in the pool exactly when no active
    assignment refers to it; so it is either free or occupied and never
    both.  An identifier that is not configured is neither.  The keys of the
    relay-pin map are those of a Python dictionary, hence without
    repetition. *)
Theorem locker_free_iff_not_occupied (cfg : Config) (s : System) :
  NoDup (keys (relay_pins cfg)) ->
  reachable cfg s ->
  forall l,
    (In l (keys (relay_pins cfg)) ->
       (free (data s) l <-> ~ occupied (data s) l)
       /\ ((free (data s) l /\ ~ occupied (data s) l)
           \/ (occupied (data s) l /\ ~ free (data s) l)))
    /\ (~ In l (keys (relay_pins cfg)) ->
        ~ free (data s) l /\ ~ occupied (data s) l).
Proof.
  intros ND Hr l.
  destruct (reachable_consistent cfg s ND Hr) as [_ _ _ Hd Hcov _].
  split.
  - intros Hl. apply Hcov in Hl. split.
    + split; [apply Hd|]. intros Hn. tauto.
    + destruct Hl as [Hf|Ho].
      * left. split; [assumption | now apply Hd].
      * right. split; [assumption|]. intros Hf. exact (Hd l Hf Ho).
  - intros Hn. rewrite Hcov in Hn. tauto.
Qed.

Lemma locker_free_iff_not_occupied_witness :
  let env := mkEnv "u1" 1000 1001 DEFAULT_WASH_TYPES SaveOk true in
  let s0 := mkSystem (default_data DEFAULT_CONFIG) None [] [] in
  let s := fst (drop_off DEFAULT_CONFIG env DEFAULT_WASH_TYPES s0
                  (mkRequest (Some "A1") (Some (WPInt 1)))) in
  (In "1" (keys (relay_pins DEFAULT_CONFIG)) ->
     (free (data s) "1" <-> ~ occupied (data s) "1")
     /\ ((free (data s) "1" /\ ~ occupied (data s) "1")
         \/ (occupied (data s) "1" /\ ~ free (data s) "1")))
  /\ (~ In "1" (keys (relay_pins DEFAULT_CONFIG)) ->
      ~ free (data s) "1" /\ ~ occupied (data s) "1").
Proof.
  apply (locker_free_iff_not_occupied DEFAULT_CONFIG
           (fst (drop_off DEFAULT_CONFIG
                   (mkEnv "u1" 1000 1001 DEFAULT_WASH_TYPES SaveOk true)
                   DEFAULT_WASH_TYPES
                   (mkSystem (default_data DEFAULT_CONFIG) None [] [])
                   (mkRequest (Some "A1") (Some (WPInt 1)))))).
  - simpl. repeat constructor; simpl; intuition discriminate.
  - apply (reach_step DEFAULT_CONFIG
             (mkSystem (default_data DEFAULT_CONFIG) None [] [])).
    + apply reach_initial. split; reflexivity.
    + apply step_drop_off.
Defined.

(* ================================================================== *)
(** * Further properties *)

(** ** The card queue and the detector *)

Lemma refresh_duplicate_length now cid q q' :
  refresh_duplicate now cid q = Some q' -> List.length q' = List.length q.
Proof.
  revert q'. induction q as [|e q IH]; simpl; intros q'; [discriminate|].
  destruct (recent_duplicate now cid e).
  - intros [= <-]. reflexivity.
  - destruct (refresh_duplicate now cid q) as [r|]; simpl; [|discriminate].
    intros [= <-]. simpl. now rewrite (IH r).
Qed.

Lemma refresh_duplicate_present now cid q q' :
  refresh_duplicate now cid q = Some q' ->
  exists rc, In (CardRead.mk cid now rc) q'.
Proof.
  revert q'. induction q as [|e q IH]; simpl; intros q'; [discriminate|].
  destruct (recent_duplicate now cid e) eqn:E.
  - intros [= <-]. exists (CardRead.read_count e). left.
    unfold recent_duplicate in E. apply andb_true_iff in E.
    destruct E as [E _]. apply String.eqb_eq in E. now rewrite E.
  - destruct (refresh_duplicate now cid q) as [r|]; simpl; [|discriminate].
    intros [= <-]. destruct (IH r eq_refl) as [rc H]. exists rc. now right.
Qed.

Lemma tl_length_le {A} (l : list A) : (List.length (tl l) <= List.length l)%nat.
Proof. destruct l; simpl; lia. Qed.

(** X1. The queue never holds more than ten entries once it holds at most
    ten, and right after a presentation it holds an entry of the presented
    card stamped with the time of the presentation. *)
Theorem enqueue_card_bounded (now : Z) (cid : string) (q : list CardRead.t) :
  (List.length q <= 10)%nat ->
  (List.length (enqueue_card now cid q) <= 10)%nat
  /\ exists rc, In (CardRead.mk cid now rc) (enqueue_card now cid q).
Proof.
  intros Hlen. unfold enqueue_card.
  destruct (refresh_duplicate now cid q) as [q'|] eqn:E.
  - pose proof (refresh_duplicate_length _ _ _ _ E) as L.
    replace (10 <? Z.of_nat (List.length q')) with false
      by (symmetry; apply Z.ltb_ge; lia).
    split; [lia|]. eapply refresh_duplicate_present, E.
  - destruct (10 <? Z.of_nat (List.length (q ++ [CardRead.mk cid now 1]))) eqn:C.
    + rewrite length_app in C. simpl in C. apply Z.ltb_lt in C.
      assert (L : List.length q = 10%nat) by lia.
      destruct q as [|e q]; [discriminate|]. simpl. split.
      * rewrite length_app. simpl in *. lia.
      * exists 1. apply in_or_app. right. now left.
    + apply Z.ltb_ge in C. split; [lia|].
      exists 1. apply in_or_app. right. now left.
Qed.

Lemma enqueue_card_bounded_witness :
  (List.length (enqueue_card 5 "A1" [CardRead.mk "B" 0 1]) <= 10)%nat
  /\ exists rc, In (CardRead.mk "A1" 5 rc)
                   (enqueue_card 5 "A1" [CardRead.mk "B" 0 1]).
Proof.
  apply (enqueue_card_bounded 5 "A1" [CardRead.mk "B" 0 1]). simpl. lia.
Defined.

Lemma loop_step_queue tk s :
  (List.length (card_queue s) <= 10)%nat ->
  (List.length (card_queue (fst (rfid_reader_loop_step tk s))) <= 10)%nat.
Proof.
  intros H. unfold rfid_reader_loop_step. destruct (poll tk); simpl; try assumption.
  now apply enqueue_card_bounded.
Qed.

(** X2. However long the loop runs and whatever it polls, its queue keeps at
    most ten entries. *)
Theorem detector_queue_bounded (ticks : list Tick) (s : Detector) :
  (List.length (card_queue s) <= 10)%nat ->
  (List.length (card_queue (fst (rfid_reader_loop ticks s))) <= 10)%nat.
Proof.
  revert s. induction ticks as [|tk ticks IH]; intros s H; simpl; [assumption|].
  pose proof (loop_step_queue tk s H) as H1.
  destruct (rfid_reader_loop_step tk s) as [s1 acts]. specialize (IH s1 H1).
  destruct (rfid_reader_loop ticks s1) as [s2 tr]. exact IH.
Qed.

Lemma detector_queue_bounded_witness :
  (List.length
     (card_queue
        (fst (rfid_reader_loop
                (map (fun n => mkTick (PollCard (Z.of_nat n)) (seconds 5 * Z.of_nat n)
                                      0 0 ReinitOk 0) (seq 0 14))
                (detector_start 0)))) <= 10)%nat.
Proof.
  apply (detector_queue_bounded
           (map (fun n => mkTick (PollCard (Z.of_nat n)) (seconds 5 * Z.of_nat n)
                                 0 0 ReinitOk 0) (seq 0 14))
           (detector_start 0)).
  simpl. lia.
Defined.

Lemma loop_step_counters tk s :
  let s' := fst (rfid_reader_loop_step tk s) in
  rfid_reads_attempted s' = rfid_reads_attempted s + 1
  /\ rfid_reads_successful s'
     = rfid_reads_successful s + (if poll_is_card tk then 1 else 0)
  /\ rfid_errors s' = rfid_errors s + (if poll_is_error tk then 1 else 0).
Proof.
  unfold rfid_reader_loop_step, poll_is_card, poll_is_error.
  destruct (poll tk); simpl; repeat split; lia.
Qed.

(** X3. The health counters count what they are named after: after any run
    of the loop, the attempts have grown by the number of iterations, the
    successful reads by the number of polls that returned a card, and the
    errors by the number of polls that raised; so, from the start,
    successes plus errors never exceed the attempts. *)
Theorem detector_counters (ticks : list Tick) (s : Detector) :
  let s' := fst (rfid_reader_loop ticks s) in
  rfid_reads_attempted s'
    = rfid_reads_attempted s + Z.of_nat (List.length ticks)
  /\ rfid_reads_successful s'
     = rfid_reads_successful s
       + Z.of_nat (List.length (filter poll_is_card ticks))
  /\ rfid_errors s'
     = rfid_errors s + Z.of_nat (List.length (filter poll_is_error ticks))
  /\ (rfid_reads_successful s' - rfid_reads_successful s)
     + (rfid_errors s' - rfid_errors s)
     <= rfid_reads_attempted s' - rfid_reads_attempted s.
Proof.
  revert s. induction ticks as [|tk ticks IH]; intros s.
  - simpl. repeat split; lia.
  - simpl. pose proof (loop_step_counters tk s) as H. cbv zeta in H.
    destruct (rfid_reader_loop_step tk s) as [s1 acts]. simpl in H.
    specialize (IH s1). cbv zeta in IH.
    destruct (rfid_reader_loop ticks s1) as [s2 tr]. simpl in IH |- *.
    destruct H as (Ha & Hs & He). destruct IH as (Ia & Is & Ie & Il).
    unfold poll_is_card, poll_is_error in *.
    destruct (poll tk); simpl in *; repeat split; lia.
Qed.




(** ** [get_last_card] *)

Lemma In_rev_head {A} (l : list A) x r : rev l = x :: r -> In x l.
Proof.
  intros H. apply in_rev. rewrite H. now left.
Qed.

(** X5. [get_last_card] only ever answers with an entry of the queue whose
    age is within the validity window, and so does the [/api/read-card]
    route; an empty queue gives no card. *)
Theorem get_last_card_sound (cfg : Config) (now : Z) (q : list CardRead.t)
  (c : CardRead.t) :
  get_last_card cfg now q = Some c ->
  In c q
  /\ now - CardRead.timestamp c <= seconds (validity_window cfg)
  /\ read_card cfg now q = (true, Some c).
Proof.
  unfold read_card, get_last_card.
  destruct (rev q) as [|newest r] eqn:R; [discriminate|].
  destruct (find _ (newest :: r)) as [m|] eqn:F.
  - intros [= <-]. apply find_some in F. destruct F as [Hin Hm].
    rewrite <- R in Hin. apply in_rev in Hin.
    unfold multi_read_recent in Hm. apply andb_true_iff in Hm.
    destruct Hm as [_ Hm]. apply Z.leb_le in Hm. auto.
  - destruct (recent _ now newest) eqn:Hr; [|discriminate].
    intros [= <-]. unfold recent in Hr. apply Z.leb_le in Hr.
    split; [eapply In_rev_head, R | auto].
Qed.

Lemma get_last_card_sound_witness :
  In (CardRead.mk "A1" (seconds 90) 1) [CardRead.mk "A1" (seconds 90) 1]
  /\ seconds 100 - CardRead.timestamp (CardRead.mk "A1" (seconds 90) 1)
     <= seconds (validity_window DEFAULT_CONFIG)
  /\ read_card DEFAULT_CONFIG (seconds 100) [CardRead.mk "A1" (seconds 90) 1]
     = (true, Some (CardRead.mk "A1" (seconds 90) 1)).
Proof.
  apply (get_last_card_sound DEFAULT_CONFIG (seconds 100)
           [CardRead.mk "A1" (seconds 90) 1] (CardRead.mk "A1" (seconds 90) 1)).
  reflexivity.
Defined.

Lemma single_reads_not_multi w now q :
  Forall (fun e => CardRead.read_count e = 1) q ->
  Forall (fun e => multi_read_recent w now e = false) q.
Proof.
  intros H. eapply Forall_impl; [|exact H].
  intros e He. unfold multi_read_recent. now rewrite He.
Qed.

Lemma get_last_card_single_reads cfg now q :
  Forall (fun e => CardRead.read_count e = 1) q ->
  get_last_card cfg now q
  = match rev q with
    | [] => None
    | newest :: _ =>
        if recent (validity_window cfg) now newest then Some newest else None
    end.
Proof.
  intros H. unfold get_last_card.
  destruct (rev q) as [|newest r] eqn:R; [reflexivity|].
  rewrite find_all_false; [reflexivity|].
  rewrite <- R. apply Forall_rev. now apply single_reads_not_multi.
Qed.

(** X6. On every queue the detector can build from its start, whatever it
    polled, [get_last_card] is decided by the last entry alone: that entry
    when its age is within the window, no card otherwise.  The search for
    entries read several times never finds one. *)
Theorem get_last_card_of_detector (cfg : Config) (now t0 : Z)
  (ticks : list Tick) :
  let q := card_queue (fst (rfid_reader_loop ticks (detector_start t0))) in
  get_last_card cfg now q
  = match rev q with
    | [] => None
    | newest :: _ =>
        if recent (validity_window cfg) now newest then Some newest else None
    end.
Proof.
  intros q. apply get_last_card_single_reads.
  apply detector_read_count_always_one. constructor.
Qed.

(** X7. When a presentation refreshes an entry that is not the last one of
    the queue, the answer of [get_last_card] at that very instant is still
    the last entry, the card of someone else, provided that entry is within
    the window: the card just presented is not reported. *)
Theorem refreshed_card_is_masked (cfg : Config) (now : Z) (cid : string)
  (older : list CardRead.t) (e : CardRead.t) (between : list CardRead.t)
  (z : CardRead.t) :
  let q := older ++ e :: between ++ [z] in
  Forall (fun x => recent_duplicate now cid x = false) older ->
  recent_duplicate now cid e = true ->
  Forall (fun x => CardRead.read_count x = 1) q ->
  (List.length q <= 10)%nat ->
  CardRead.card_id z <> cid ->
  recent (validity_window cfg) now z = true ->
  get_last_card cfg now (enqueue_card now cid q) = Some z
  /\ forall c, get_last_card cfg now (enqueue_card now cid q) = Some c ->
               CardRead.card_id c <> cid.
Proof.
  intros q Hold He Hone Hlen Hz Hrec. subst q.
  assert (G : get_last_card cfg now
                (enqueue_card now cid (older ++ e :: between ++ [z])) = Some z).
  { rewrite (enqueue_card_duplicate _ _ _ _ _ Hold He Hlen).
    rewrite get_last_card_single_reads.
    - replace (older ++ CardRead.mk cid now (CardRead.read_count e) :: between ++ [z])
        with ((older ++ CardRead.mk cid now (CardRead.read_count e) :: between) ++ [z])
        by (rewrite <- app_assoc; reflexivity).
      rewrite rev_app_distr. simpl. now rewrite Hrec.
    - apply Forall_app in Hone. destruct Hone as [H1 H2].
      inversion H2 as [|? ? H3 H4]; subst.
      apply Forall_app. split; [assumption|]. constructor; [exact H3 | assumption]. }
  split; [exact G|]. intros c Hc. rewrite G in Hc. injection Hc as <-. exact Hz.
Qed.

Lemma refreshed_card_is_masked_witness :
  get_last_card DEFAULT_CONFIG (seconds 1)
    (enqueue_card (seconds 1) "A"
       ([] ++ CardRead.mk "A" 0 1 :: [] ++ [CardRead.mk "B" 500000 1]))
  = Some (CardRead.mk "B" 500000 1)
  /\ forall c,
      get_last_card DEFAULT_CONFIG (seconds 1)
        (enqueue_card (seconds 1) "A"
           ([] ++ CardRead.mk "A" 0 1 :: [] ++ [CardRead.mk "B" 500000 1]))
      = Some c -> CardRead.card_id c <> "A".
Proof.
  apply (refreshed_card_is_masked DEFAULT_CONFIG (seconds 1) "A" []
           (CardRead.mk "A" 0 1) [] (CardRead.mk "B" 500000 1)).
  - constructor.
  - reflexivity.
  - repeat constructor.
  - simpl. lia.
  - discriminate.
  - reflexivity.
Defined.

(** ** Card identity: case and surrounding blanks *)






Lemma dict_mem_ci {V} k (d : dict V) :
  dict_mem k d = true ->
  existsb (fun a => String.eqb (lower a) (lower k)) (keys d) = true.
Proof.
  unfold dict_mem. intros H. apply mem_In in H. apply existsb_exists.
  exists k. split; [assumption | apply String.eqb_refl].
Qed.

Lemma check_card_already_assigned_ci d card_id :
  check_card_already_assigned d card_id
  = (existsb (fun k => String.eqb (lower k) (lower (strip card_id)))
             (keys (active_cards d))
     || existsb (fun t =>
                   negb (is_completed (Transaction.status t))
                   && String.eqb (lower (strip (Transaction.card_id t)))
                                 (lower (strip card_id)))
                (transactions d)).
Proof.
  unfold check_card_already_assigned.
  destruct (dict_mem (strip card_id) (active_cards d)) eqn:M.
  - now rewrite (dict_mem_ci _ _ M).
  - destruct (existsb _ (keys (active_cards d))); reflexivity.
Qed.

(** X8. Whether a card counts as already assigned depends only on its id
    with surrounding blanks removed and letters lowered: two spellings of
    one card always get the same answer, so the exact-key test adds
    nothing to the two case-insensitive scans. *)
Theorem check_card_normalised (d : Data) (c1 c2 : string) :
  lower (strip c1) = lower (strip c2) ->
  check_card_already_assigned d c1 = check_card_already_assigned d c2.
Proof.
  intros E. rewrite !check_card_already_assigned_ci. now rewrite E.
Qed.

Lemma check_card_normalised_witness :
  let d := mkData [("ab12", Assignment.mk "1" "u1")] [] ["2"] in
  check_card_already_assigned d " AB12 " = check_card_already_assigned d "ab12".
Proof.
  apply (check_card_normalised
           (mkData [("ab12", Assignment.mk "1" "u1")] [] ["2"]) " AB12 " "ab12").
  reflexivity.
Defined.





Lemma resolve_active_ci c1 c2 (ac : dict Assignment.t) :
  keys_distinct_ci ac -> lower c1 = lower c2 ->
  resolve_active c1 ac = resolve_active c2 ac.
Proof.
  intros ND E.
  destruct (resolve_active c2 ac) as [[k2 i2]|] eqn:R2.
  - destruct (resolve_active c1 ac) as [[k1 i1]|] eqn:R1.
    + apply resolve_active_get in R1, R2.
      destruct R1 as [G1 L1], R2 as [G2 L2].
      assert (k1 = k2).
      { apply (NoDup_map_inj lower (keys ac)); [exact ND | | | congruence].
        - apply dict_get_In in G1. unfold keys.
          change k1 with (fst (k1, i1)). now apply in_map.
        - apply dict_get_In in G2. unfold keys.
          change k2 with (fst (k2, i2)). now apply in_map. }
      subst. congruence.
    + exfalso. apply resolve_active_get in R2. destruct R2 as [G2 L2].
      pose proof (proj1 (resolve_active_none c1 ac) R1 k2) as H.
      apply H; [|congruence]. apply dict_get_In in G2. unfold keys.
      change k2 with (fst (k2, i2)). now apply in_map.
  - apply resolve_active_none. intros k Hk.
    rewrite E. now apply (proj1 (resolve_active_none c2 ac) R2).
Qed.

(** X10. In a state whose active keys differ even up to case (every reachable
    state is one), [process_pickup] does not see the case of the presented
    id: two spellings that differ only in case give the same result and the
    same state. *)
Theorem pickup_ignores_case (cfg : Config) (env : Env) (s : System)
  (c1 c2 : string) :
  keys_distinct_ci (active_cards (data s)) ->
  lower c1 = lower c2 ->
  process_pickup cfg env s c1 = process_pickup cfg env s c2.
Proof.
  intros ND E. unfold process_pickup.
  now rewrite (resolve_active_ci c1 c2 _ ND E).
Qed.

Lemma pickup_ignores_case_witness :
  let s := mkSystem (mkData [("ab12", Assignment.mk "1" "u1")]
                            [Transaction.mk "u1" "ab12" "1" None pending 0 None None []]
                            ["2"]) None [] [] in
  let env := mkEnv "u2" 50 50 DEFAULT_WASH_TYPES SaveOk true in
  process_pickup DEFAULT_CONFIG env s "AB12"
  = process_pickup DEFAULT_CONFIG env s "aB12".
Proof.
  apply (pickup_ignores_case DEFAULT_CONFIG
           (mkEnv "u2" 50 50 DEFAULT_WASH_TYPES SaveOk true)
           (mkSystem (mkData [("ab12", Assignment.mk "1" "u1")]
                             [Transaction.mk "u1" "ab12" "1" None pending 0 None None []]
                             ["2"]) None [] [])
           "AB12" "aB12").
  - unfold keys_distinct_ci. simpl. repeat constructor. simpl. tauto.
  - reflexivity.
Defined.



(** ** Drop-off followed by pickup *)



Lemma unlock_locker_gpio cfg l s :
  gpio (fst (unlock_locker cfg l s))
  = gpio s ++ match dict_get l (relay_pins cfg) with
              | Some pin => unlock_cycle cfg pin
              | None => []
              end.
Proof.
  unfold unlock_locker. destruct (dict_get l (relay_pins cfg)); simpl.
  - reflexivity.
  - now rewrite app_nil_r.
Qed.



(** ** The history of transactions *)

Lemma complete_first_split p now ts u ts' :
  complete_first p now ts = Some (u, ts') ->
  exists l1 t l2,
    ts = l1 ++ t :: l2 /\ Forall (fun x => p x = false) l1 /\ p t = true
    /\ u = mark_completed now t /\ ts' = l1 ++ u :: l2.
Proof.
  revert ts'. induction ts as [|x ts IH]; simpl; intros ts'; [discriminate|].
  destruct (p x) eqn:Hx.
  - intros [= <- <-]. exists [], x, ts. simpl. auto.
  - destruct (complete_first p now ts) as [[u' r]|]; [|discriminate].
    intros [= <- <-]. destruct (IH r eq_refl) as (l1 & t & l2 & -> & Hl & Ht & -> & ->).
    exists (x :: l1), t, l2. simpl. repeat split; auto.
Qed.

Lemma pickup_history cfg env s card_id :
  history_step (transactions (data s))
               (transactions (data (fst (process_pickup cfg env s card_id)))).
Proof.
  pose proof (pickup_outcome cfg env s card_id) as P. cbv zeta in P.
  destruct (resolve_active card_id (active_cards (data s))) as [[k info]|].
  2:{ rewrite P. now left. }
  destruct P as [_ P].
  destruct (complete_first _ (now1 env) (transactions (data s)))
    as [[u ts]|] eqn:C1.
  { rewrite P. cbn. apply complete_first_split in C1.
    destruct C1 as (l1 & t & l2 & E & _ & _ & -> & ->).
    right. right. exists (now1 env), l1, t, l2. auto. }
  clear C1. revert P.
  destruct (complete_first _ (now1 env) (transactions (data s)))
    as [[u ts]|] eqn:C2; intros P.
  { rewrite P. cbn. apply complete_first_split in C2.
    destruct C2 as (l1 & t & l2 & E & _ & _ & -> & ->).
    right. right. exists (now1 env), l1, t, l2. auto. }
  rewrite P. now left.
Qed.

Lemma assign_history env s c l w :
  history_step (transactions (data s))
               (transactions (data (fst (assign_card_to_locker env s c l w)))).
Proof.
  destruct (assign_data_cases env s c l w) as [E|(_ & _ & sel & E)]; rewrite E.
  - now left.
  - right. left. eexists. split; reflexivity.
Qed.

Lemma step_history cfg s s' :
  step cfg s s' ->
  history_step (transactions (data s)) (transactions (data s')).
Proof.
  intros [env catalog s0 req | env s0 c l w | env s0 c].
  - destruct (drop_off_data_cases cfg env catalog s0 req) as [E|(c & l & w & E)];
      rewrite E; [now left | apply assign_history].
  - apply assign_history.
  - apply pickup_history.
Qed.

Lemma same_booking_refl t : same_booking t t.
Proof. unfold same_booking. tauto. Qed.

Lemma same_booking_trans t1 t2 t3 :
  same_booking t1 t2 -> same_booking t2 t3 -> same_booking t1 t3.
Proof. unfold same_booking. intuition congruence. Qed.

Lemma history_step_nth ts ts' i t :
  history_step ts ts' -> nth_error ts i = Some t ->
  exists t', nth_error ts' i = Some t' /\ same_booking t t'.
Proof.
  intros [->|[(x & -> & _)|(now & l1 & x & l2 & -> & ->)]] H.
  - exists t. split; [assumption | apply same_booking_refl].
  - exists t. split; [|apply same_booking_refl].
    rewrite nth_error_app1; [assumption|]. apply nth_error_Some. congruence.
  - destruct (Nat.lt_ge_cases i (List.length l1)) as [Hlt|Hge].
    + rewrite nth_error_app1 in H |- * by assumption.
      exists t. split; [assumption | apply same_booking_refl].
    + rewrite nth_error_app2 in H |- * by assumption.
      destruct (i - List.length l1)%nat as [|n]; simpl in *.
      * injection H as <-. exists (mark_completed now x).
        split; [reflexivity|]. unfold same_booking, mark_completed. simpl. tauto.
      * exists t. split; [assumption | apply same_booking_refl].
Qed.

(** X13. The history is append-only. A request leaves the transaction list
    as it is, or appends one pending record, or completes one record in
    place.  Hence over any sequence of requests a record stays at its index
    with its id, card, locker, wash type and times of booking, and a
    completed record stays completed: nothing is deleted, reordered or
    reopened. *)
Theorem history_is_append_only (cfg : Config) (s s' : System) :
  steps cfg s s' ->
  forall i t,
    nth_error (transactions (data s)) i = Some t ->
    exists t', nth_error (transactions (data s')) i = Some t'
               /\ same_booking t t'.
Proof.
  induction 1 as [s|s s1 s2 _ IH St]; intros i t H.
  - exists t. split; [assumption | apply same_booking_refl].
  - destruct (IH i t H) as (t1 & H1 & B1).
    destruct (history_step_nth _ _ i t1 (step_history _ _ _ St) H1)
      as (t2 & H2 & B2).
    exists t2. split; [assumption | eapply same_booking_trans; eassumption].
Qed.

Lemma history_is_append_only_witness :
  let env := mkEnv "u1" 1000 1001 DEFAULT_WASH_TYPES SaveOk true in
  let env2 := mkEnv "u2" 2000 2001 DEFAULT_WASH_TYPES SaveOk true in
  let old := Transaction.mk "u0" "B7" "2" None completed 5 (Some 9) None [] in
  let s := mkSystem (mkData [] [old] ["1"; "2"]) None [] [] in
  let s1 := fst (drop_off DEFAULT_CONFIG env DEFAULT_WASH_TYPES s
                   (mkRequest (Some "A1") (Some (WPInt 1)))) in
  let s2 := fst (process_pickup DEFAULT_CONFIG env2 s1 "A1") in
  exists t', nth_error (transactions (data s2)) 0 = Some t' /\ same_booking old t'.
Proof.
  apply (history_is_append_only DEFAULT_CONFIG
           (mkSystem (mkData [] [Transaction.mk "u0" "B7" "2" None completed 5 (Some 9) None []]
                             ["1"; "2"]) None [] [])
           (fst (process_pickup DEFAULT_CONFIG
                   (mkEnv "u2" 2000 2001 DEFAULT_WASH_TYPES SaveOk true)
                   (fst (drop_off DEFAULT_CONFIG
                           (mkEnv "u1" 1000 1001 DEFAULT_WASH_TYPES SaveOk true)
                           DEFAULT_WASH_TYPES
                           (mkSystem (mkData [] [Transaction.mk "u0" "B7" "2" None completed 5 (Some 9) None []]
                                             ["1"; "2"]) None [] [])
                           (mkRequest (Some "A1") (Some (WPInt 1)))))
                   "A1"))).
  - eapply steps_then; [eapply steps_then; [apply steps_refl|]|].
    + apply step_drop_off.
    + apply step_pickup.
  - reflexivity.
Defined.

(** ** The actuator over sequences of requests *)

Lemma assign_gpio env s c l w :
  gpio (fst (assign_card_to_locker env s c l w)) = gpio s.
Proof.
  destruct (assign_outcome env s c l w) as [[_ E]|(_ & _ & _ & sel & _ & _ & E)].
  - now rewrite E.
  - exact E.
Qed.

Lemma drop_off_gpio cfg env catalog s req :
  gpio (fst (drop_off cfg env catalog s req)) = gpio s
  \/ exists locker_id rest,
      available_lockers (data s) = locker_id :: rest
      /\ success (snd (drop_off cfg env catalog s req)) = true
      /\ resp_locker_id (snd (drop_off cfg env catalog s req)) = Some locker_id
      /\ gpio (fst (drop_off cfg env catalog s req))
         = gpio s ++ match dict_get locker_id (relay_pins cfg) with
                     | Some pin => unlock_cycle cfg pin
                     | None => []
                     end.
Proof.
  unfold drop_off.
  destruct (req_card_id req) as [raw|]; [|now left].
  destruct (req_wash_type req) as [wp|]; [|now left].
  destruct (check_card_already_assigned _ _); [now left|].
  destruct (available_lockers (data s)) as [|l rest] eqn:A; [now left|].
  destruct (resolve_wash_type catalog wp) as [msg|wid]; [now left|].
  pose proof (assign_gpio env s raw l wid) as G.
  destruct (assign_card_to_locker env s raw l wid) as [s1 [ok m]].
  simpl in G. destruct ok; cbn [fst snd]; [|now left].
  right. exists l, rest. repeat split. rewrite unlock_locker_gpio. now rewrite G.
Qed.






Lemma configured_has_pin cfg l :
  In l (keys (relay_pins cfg)) -> exists pin, dict_get l (relay_pins cfg) = Some pin.
Proof.
  intros H. apply dict_get_mem. unfold dict_mem. now apply mem_In.
Qed.

(** X15. In a reachable state, success means the door was driven: a
    successful drop-off runs exactly one unlock cycle on the pin of the
    locker it answers with, and a successful pickup runs exactly one unlock
    cycle on the pin of the locker recorded for the card. *)
Theorem success_opens_the_locker (cfg : Config) (s : System) :
  NoDup (keys (relay_pins cfg)) ->
  reachable cfg s ->
  (forall env catalog req,
      let r := drop_off cfg env catalog s req in
      success (snd r) = true ->
      exists locker_id pin,
        resp_locker_id (snd r) = Some locker_id
        /\ dict_get locker_id (relay_pins cfg) = Some pin
        /\ gpio (fst r) = gpio s ++ unlock_cycle cfg pin)
  /\ (forall env card_id,
      let r := process_pickup cfg env s card_id in
      fst (snd r) = true ->
      exists k info pin,
        resolve_active card_id (active_cards (data s)) = Some (k, info)
        /\ dict_get (Assignment.locker_id info) (relay_pins cfg) = Some pin
        /\ gpio (fst r) = gpio s ++ unlock_cycle cfg pin).
Proof.
  intros ND Hr. pose proof (reachable_consistent cfg s ND Hr) as Hc.
  destruct Hc as [_ _ _ _ Hcov Htx]. split.
  - intros env catalog req r Hok.
    destruct (drop_off_gpio cfg env catalog s req) as [E|(l & rest & A & _ & Hl & E)].
    + exfalso. subst r. revert Hok E. unfold drop_off.
      destruct (req_card_id req) as [raw|]; [|discriminate].
      destruct (req_wash_type req) as [wp|]; [|discriminate].
      destruct (check_card_already_assigned _ _); [discriminate|].
      destruct (available_lockers (data s)) as [|l rest] eqn:A; [discriminate|].
      destruct (resolve_wash_type catalog wp) as [msg|wid]; [discriminate|].
      pose proof (assign_gpio env s raw l wid) as G.
      destruct (assign_card_to_locker env s raw l wid) as [s1 [ok m]].
      simpl in G. destruct ok; cbn [fst snd]; [|discriminate].
      intros _. rewrite unlock_locker_gpio, G.
      destruct (configured_has_pin cfg l) as [pin Hp].
      { apply Hcov. left. unfold free. rewrite A. now left. }
      rewrite Hp. unfold unlock_cycle. intros E.
      apply (f_equal (@List.length Gpio)) in E. rewrite length_app in E.
      simpl in E. lia.
    + destruct (configured_has_pin cfg l) as [pin Hp].
      { apply Hcov. left. unfold free. rewrite A. now left. }
      exists l, pin. fold r in Hl, E. rewrite Hp in E. auto.
  - intros env card_id r Hok.
    pose proof (pickup_outcome cfg env s card_id) as P. cbv zeta in P. fold r in P.
    destruct (resolve_active card_id (active_cards (data s))) as [[k info]|] eqn:R.
    2:{ rewrite P in Hok. discriminate. }
    pose proof (resolve_active_get _ _ _ _ R) as [G _].
    apply dict_get_In in G.
    destruct (configured_has_pin cfg (Assignment.locker_id info)) as [pin Hp].
    { apply Hcov. right. exists k, info. auto. }
    exists k, info, pin. split; [reflexivity|]. split; [assumption|].
    subst r. unfold process_pickup. rewrite R. cbv zeta.
    destruct (complete_first _ (now1 env) (transactions (data s)))
      as [[u ts]|] eqn:C1.
    + cbn [fst snd send_to_server gpio release save_data with_data].
      rewrite unlock_locker_gpio, Hp. reflexivity.
    + exfalso. apply complete_first_none in C1. rewrite Forall_forall in C1.
      specialize (Htx k info G). apply in_map_iff in Htx.
      destruct Htx as (t & E & Ht). specialize (C1 t Ht). simpl in C1.
      rewrite E, String.eqb_refl in C1. discriminate.
Qed.

Lemma success_opens_the_locker_witness :
  let env := mkEnv "u1" 1000 1001 DEFAULT_WASH_TYPES SaveOk true in
  let s := mkSystem (default_data DEFAULT_CONFIG) None [] [] in
  let r := drop_off DEFAULT_CONFIG env DEFAULT_WASH_TYPES s
             (mkRequest (Some "A1") (Some (WPInt 1))) in
  exists locker_id pin,
    resp_locker_id (snd r) = Some locker_id
    /\ dict_get locker_id (relay_pins DEFAULT_CONFIG) = Some pin
    /\ gpio (fst r) = gpio s ++ unlock_cycle DEFAULT_CONFIG pin.
Proof.
  refine (proj1 (success_opens_the_locker DEFAULT_CONFIG
                   (mkSystem (default_data DEFAULT_CONFIG) None [] []) _ _)
                (mkEnv "u1" 1000 1001 DEFAULT_WASH_TYPES SaveOk true)
                DEFAULT_WASH_TYPES
                (mkRequest (Some "A1") (Some (WPInt 1))) _).
  - simpl. repeat constructor; simpl; intuition discriminate.
  - apply reach_initial. split; reflexivity.
  - reflexivity.
Defined.

(** ** Persistence and restart *)

Lemma assign_disk env s c l w :
  let r := assign_card_to_locker env s c l w in
  fst (snd r) = true -> disk (fst r) = saved_disk (save_outcome env) s (fst r).
Proof.
  unfold assign_card_to_locker. cbv zeta.
  destruct (check_card_already_assigned _ _); [discriminate|].
  destruct (negb _); [discriminate|].
  destruct (find _ (get_wash_types env)); [|discriminate].
  intros _. cbn. destruct (save_outcome env); reflexivity.
Qed.

Lemma assign_failure_unchanged env s c l w :
  fst (snd (assign_card_to_locker env s c l w)) = false ->
  fst (assign_card_to_locker env s c l w) = s.
Proof.
  intros H. destruct (assign_outcome env s c l w) as [[_ E]|[Ht _]];
    [assumption | congruence].
Qed.

Lemma drop_off_disk cfg env catalog s req :
  let r := drop_off cfg env catalog s req in
  (success (snd r) = true ->
   disk (fst r) = saved_disk (save_outcome env) s (fst r))
  /\ (success (snd r) = false -> fst r = s).
Proof.
  unfold drop_off.
  destruct (req_card_id req) as [raw|]; [|split; [discriminate | reflexivity]].
  destruct (req_wash_type req) as [wp|]; [|split; [discriminate | reflexivity]].
  destruct (check_card_already_assigned _ _); [split; [discriminate | reflexivity]|].
  destruct (available_lockers (data s)) as [|l rest];
    [split; [discriminate | reflexivity]|].
  destruct (resolve_wash_type catalog wp) as [msg|wid];
    [split; [discriminate | reflexivity]|].
  pose proof (assign_disk env s raw l wid) as D.
  pose proof (assign_failure_unchanged env s raw l wid) as U. cbv zeta in D.
  destruct (assign_card_to_locker env s raw l wid) as [s1 [ok m]].
  cbn [fst snd] in *. destruct ok; cbn [fst snd success].
  - split; [|discriminate]. intros _. specialize (D eq_refl).
    unfold saved_disk in *. rewrite unlock_locker_data.
    unfold unlock_locker. destruct (dict_get l (relay_pins cfg)); exact D.
  - split; [discriminate|]. intros _. now apply U.
Qed.

Lemma pickup_disk cfg env s card_id :
  let r := process_pickup cfg env s card_id in
  (fst (snd r) = true ->
   disk (fst r) = saved_disk (save_outcome env) s (fst r))
  /\ (fst (snd r) = false -> fst r = s).
Proof.
  unfold process_pickup. cbv zeta.
  destruct (resolve_active _ _) as [[k info]|];
    [|split; [discriminate | reflexivity]].
  destruct (complete_first _ (now1 env) (transactions (data s))) as [[u ts]|].
  { split; [|discriminate]. intros _. cbn.
    unfold unlock_locker. destruct (dict_get _ (relay_pins cfg));
      destruct (save_outcome env); reflexivity. }
  destruct (complete_first _ (now1 env) (transactions (data s))) as [[u ts]|].
  { split; [|discriminate]. intros _. cbn.
    unfold unlock_locker. destruct (dict_get _ (relay_pins cfg));
      destruct (save_outcome env); reflexivity. }
  destruct (dict_get k (active_cards (data s))).
  - split; [|discriminate]. intros _. cbn. destruct (save_outcome env); reflexivity.
  - split; [discriminate | reflexivity].
Qed.

(** X16. What a restart finds after a request.  After a successful drop-off
    or pickup whose write succeeded, [load_data] returns exactly the data in
    memory.  When the write failed after the file was opened, the file no
    longer parses and [load_data] falls back to the default data: no active
    card and every configured locker free, whatever was assigned before.
    When the file could not be opened, and after any refused request, the
    file is the one from before the request. *)
Theorem restart_after_request (cfg : Config) (env : Env) (s : System)
  (created : bool) :
  (forall catalog req,
      let r := drop_off cfg env catalog s req in
      (success (snd r) = true -> save_outcome env = SaveOk ->
       load_data cfg created (db_file (fst r))
       = Some (data (fst r), db_file (fst r)))
      /\ (success (snd r) = true -> save_outcome env = SaveWriteFails ->
          load_data cfg created (db_file (fst r))
          = Some (default_data cfg, db_file (fst r)))
      /\ (success (snd r) = true -> save_outcome env = SaveOpenFails ->
          db_file (fst r) = db_file s)
      /\ (success (snd r) = false -> db_file (fst r) = db_file s))
  /\ (forall req_card,
      let r := pick_up cfg env s req_card in
      (success (snd r) = true -> save_outcome env = SaveOk ->
       load_data cfg created (db_file (fst r))
       = Some (data (fst r), db_file (fst r)))
      /\ (success (snd r) = true -> save_outcome env = SaveWriteFails ->
          load_data cfg created (db_file (fst r))
          = Some (default_data cfg, db_file (fst r)))
      /\ (success (snd r) = true -> save_outcome env = SaveOpenFails ->
          db_file (fst r) = db_file s)
      /\ (success (snd r) = false -> db_file (fst r) = db_file s)).
Proof.
  assert (K : forall (s' : System) (ok : bool),
             (ok = true -> disk s' = saved_disk (save_outcome env) s s') ->
             (ok = false -> s' = s) ->
             (ok = true -> save_outcome env = SaveOk ->
              load_data cfg created (db_file s') = Some (data s', db_file s'))
             /\ (ok = true -> save_outcome env = SaveWriteFails ->
                 load_data cfg created (db_file s')
                 = Some (default_data cfg, db_file s'))
             /\ (ok = true -> save_outcome env = SaveOpenFails ->
                 db_file s' = db_file s)
             /\ (ok = false -> db_file s' = db_file s)).
  { intros s' ok Hs Hf. unfold db_file, load_data. repeat split.
    - intros H O. rewrite (Hs H), O. reflexivity.
    - intros H O. rewrite (Hs H), O. reflexivity.
    - intros H O. rewrite (Hs H), O. reflexivity.
    - intros H. now rewrite (Hf H). }
  split.
  - intros catalog req r. destruct (drop_off_disk cfg env catalog s req) as [D U].
    apply K; assumption.
  - intros req_card r. subst r. unfold pick_up.
    destruct req_card as [c|].
    + destruct (pickup_disk cfg env s c) as [D U].
      destruct (process_pickup cfg env s c) as [s1 [ok m]].
      cbn [fst snd success] in *. apply K; assumption.
    + cbn [fst snd success]. apply K; [discriminate | reflexivity].
Qed.

Lemma restart_after_request_witness :
  let env := mkEnv "u1" 1000 1001 DEFAULT_WASH_TYPES SaveWriteFails true in
  let s := mkSystem (mkData [("B7", Assignment.mk "2" "u0")]
                            [Transaction.mk "u0" "B7" "2" None pending 5 None None []]
                            ["1"])
                    (Some (mkData [("B7", Assignment.mk "2" "u0")]
                                  [Transaction.mk "u0" "B7" "2" None pending 5 None None []]
                                  ["1"])) [] [] in
  let r := drop_off DEFAULT_CONFIG env DEFAULT_WASH_TYPES s
             (mkRequest (Some "A1") (Some (WPInt 1))) in
  load_data DEFAULT_CONFIG true (db_file (fst r))
  = Some (default_data DEFAULT_CONFIG, db_file (fst r)).
Proof.
  refine (proj1 (proj2 (proj1 (restart_after_request DEFAULT_CONFIG
             (mkEnv "u1" 1000 1001 DEFAULT_WASH_TYPES SaveWriteFails true)
             (mkSystem (mkData [("B7", Assignment.mk "2" "u0")]
                               [Transaction.mk "u0" "B7" "2" None pending 5 None None []]
                               ["1"])
                       (Some (mkData [("B7", Assignment.mk "2" "u0")]
                                     [Transaction.mk "u0" "B7" "2" None pending 5 None None []]
                                     ["1"])) [] [])
             true)
             DEFAULT_WASH_TYPES
             (mkRequest (Some "A1") (Some (WPInt 1))))) _ _); reflexivity.
Defined.


(** ** Counting lockers *)

Lemma consistent_counts cfg d :
  NoDup (keys (relay_pins cfg)) ->
  consistent cfg d ->
  (List.length (available_lockers d) + List.length (active_cards d)
   = List.length (relay_pins cfg))%nat.
Proof.
  intros ND [Hp _ Hl Hd Hcov _].
  set (occ := map (fun p => Assignment.locker_id (snd p)) (active_cards d)) in *.
  assert (N : NoDup (available_lockers d ++ occ)).
  { apply NoDup_app; [assumption | assumption |].
    intros a Ha Ho. apply (Hd a Ha). now apply occupied_In. }
  assert (L1 : (List.length (available_lockers d ++ occ)
                <= List.length (keys (relay_pins cfg)))%nat).
  { apply NoDup_incl_length; [exact N|]. intros a Ha. apply Hcov.
    apply in_app_or in Ha. destruct Ha as [Ha|Ha];
      [now left | right; now apply occupied_In]. }
  assert (L2 : (List.length (keys (relay_pins cfg))
                <= List.length (available_lockers d ++ occ))%nat).
  { apply NoDup_incl_length; [exact ND|]. intros a Ha. apply Hcov in Ha.
    apply in_or_app. destruct Ha as [Ha|Ha];
      [now left | right; now apply occupied_In]. }
  rewrite length_app in L1, L2. unfold occ, keys in *.
  rewrite !length_map in L1, L2. lia.
Qed.

(** X17. In every reachable state the two counters that [get_health]
    reports add up to the number of configured lockers: free lockers plus
    active cards is constant, so no locker is ever lost or counted twice. *)
Theorem health_counts_add_up (cfg : Config) (s : System) (det : Detector)
  (t1 t2 : Z) :
  NoDup (keys (relay_pins cfg)) ->
  reachable cfg s ->
  h_available_lockers (get_health det s t1 t2)
  + h_active_transactions (get_health det s t1 t2)
  = Z.of_nat (List.length (relay_pins cfg)).
Proof.
  intros ND Hr. unfold get_health. cbn [h_available_lockers h_active_transactions].
  pose proof (consistent_counts cfg (data s) ND (reachable_consistent _ _ ND Hr)).
  lia.
Qed.

Lemma health_counts_add_up_witness :
  let env := mkEnv "u1" 1000 1001 DEFAULT_WASH_TYPES SaveOk true in
  let s := fst (drop_off DEFAULT_CONFIG env DEFAULT_WASH_TYPES
                  (mkSystem (default_data DEFAULT_CONFIG) None [] [])
                  (mkRequest (Some "A1") (Some (WPInt 1)))) in
  h_available_lockers (get_health (detector_start 0) s 10 10)
  + h_active_transactions (get_health (detector_start 0) s 10 10)
  = Z.of_nat (List.length (relay_pins DEFAULT_CONFIG)).
Proof.
  apply (health_counts_add_up DEFAULT_CONFIG
           (fst (drop_off DEFAULT_CONFIG
                   (mkEnv "u1" 1000 1001 DEFAULT_WASH_TYPES SaveOk true)
                   DEFAULT_WASH_TYPES
                   (mkSystem (default_data DEFAULT_CONFIG) None [] [])
                   (mkRequest (Some "A1") (Some (WPInt 1)))))
           (detector_start 0) 10 10).
  - simpl. repeat constructor; simpl; intuition discriminate.
  - apply (reach_step DEFAULT_CONFIG
             (mkSystem (default_data DEFAULT_CONFIG) None [] [])).
    + apply reach_initial. split; reflexivity.
    + apply step_drop_off.
Defined.

(** ** Status and health *)

(** X18. The two monitoring answers use different tests and can disagree
    about the same reader at the same instant.  Health "OK" implies status
    "OK"; status says "OK" while health says "WARNING" exactly when no card
    was ever read or the last read is exactly 300 s old.  Health is
    "degraded", with an issue listed, exactly when its reader status is
    "WARNING". *)
Theorem status_and_health_disagree (det : Detector) (s : System) (now : Z) :
  let st := get_system_status det s now in
  let h := get_health det s now now in
  (h_rfid_status h = "OK" -> st_rfid_status st = "OK")
  /\ (st_rfid_status st = "OK" /\ h_rfid_status h = "WARNING"
      <-> last_successful_read det = None
          \/ exists t, last_successful_read det = Some t /\ now - t = seconds 300)
  /\ (h_status h = "degraded" <-> h_rfid_status h = "WARNING")
  /\ (h_status h = "healthy" <-> h_rfid_status h = "OK")
  /\ (h_issues h = None <-> h_status h = "healthy")
  /\ (last_successful_read det = None ->
      st_rfid_last_read st = "Never" /\ h_last_successful_read h = None).
Proof.
  unfold get_system_status, get_health.
  destruct (last_successful_read det) as [t|].
  - destruct (now - t <? seconds 300) eqn:E1;
      destruct (seconds 300 <? now - t) eqn:E2; cbn;
      try apply Z.ltb_lt in E1; try apply Z.ltb_ge in E1;
      try apply Z.ltb_lt in E2; try apply Z.ltb_ge in E2.
    + exfalso. unfold seconds in *. lia.
    + split; [reflexivity|]. split.
      { split; [intros [_ H]; discriminate H|].
        intros [H|(t' & [= <-] & H)]; [discriminate H | exfalso; unfold seconds in *; lia]. }
      split; [split; discriminate|]. split; [split; reflexivity|].
      split; [split; reflexivity | discriminate].
    + split; [discriminate|]. split.
      { split; [intros [H _]; discriminate H|].
        intros [H|(t' & [= <-] & H)]; [discriminate H | exfalso; unfold seconds in *; lia]. }
      split; [split; reflexivity|]. split; [split; discriminate|].
      split; [split; discriminate | discriminate].
    + split; [discriminate|]. split.
      { split; [|split; reflexivity].
        intros _. right. exists t. split; [reflexivity | unfold seconds in *; lia]. }
      split; [split; reflexivity|]. split; [split; discriminate|].
      split; [split; discriminate | discriminate].
  - cbn. split; [discriminate|]. split.
    { split; [intros _; now left | split; reflexivity]. }
    split; [split; reflexivity|]. split; [split; discriminate|].
    split; [split; discriminate|]. split; reflexivity.
Qed.

Lemma status_and_health_disagree_witness :
  let det := detector_start 0 in
  let s := mkSystem (default_data DEFAULT_CONFIG) None [] [] in
  st_rfid_status (get_system_status det s (seconds 60)) = "OK"
  /\ h_rfid_status (get_health det s (seconds 60) (seconds 60)) = "WARNING".
Proof.
  apply (proj2 (proj1 (proj2 (status_and_health_disagree
                                (detector_start 0)
                                (mkSystem (default_data DEFAULT_CONFIG) None [] [])
                                (seconds 60))))).
  left. reflexivity.
Defined.

(** ** The wash-type catalog *)

Lemma delivered_nonempty f l : delivered f = Some l -> l <> [].
Proof.
  destruct f as [code [|w ws]|]; simpl; try discriminate.
  destruct (code =? 200); [|discriminate]. intros [= <-]. discriminate.
Qed.

Lemma last_delivered_nonempty fs l : last_delivered fs = Some l -> l <> [].
Proof.
  induction fs as [|f fs IH]; simpl; [discriminate|].
  destruct (last_delivered fs) as [l'|].
  - intros [= <-]. now apply IH.
  - apply delivered_nonempty.
Qed.

Lemma last_delivered_snoc fs f :
  last_delivered (fs ++ [f])
  = match delivered f with
    | Some l => Some l
    | None => last_delivered fs
    end.
Proof.
  induction fs as [|g fs IH]; simpl.
  - destruct (delivered f); reflexivity.
  - rewrite IH. destruct (delivered f); [reflexivity|].
    destruct (last_delivered fs); reflexivity.
Qed.

Lemma catalog_call config cache f :
  Catalog.get_wash_types config cache f
  = match delivered f with
    | Some l => (map fill_defaults l, Some (map fill_defaults l))
    | None =>
        match cache with
        | Some (w :: ws) => (w :: ws, cache)
        | _ => (config, cache)
        end
    end.
Proof.
  unfold Catalog.get_wash_types, delivered.
  destruct f as [code [|w ws]|]; try reflexivity;
    destruct (code =? 200); reflexivity.
Qed.

Lemma catalog_cache config cache fs :
  snd (Catalog.calls config cache fs)
  = match last_delivered fs with
    | Some l => Some (map fill_defaults l)
    | None => cache
    end.
Proof.
  revert cache. induction fs as [|f fs IH]; intros cache; simpl; [reflexivity|].
  rewrite catalog_call.
  destruct (delivered f) as [l|] eqn:D.
  - specialize (IH (Some (map fill_defaults l))).
    destruct (Catalog.calls config (Some (map fill_defaults l)) fs) as [rs c2].
    simpl in *. rewrite IH. destruct (last_delivered fs); reflexivity.
  - assert (E : snd match cache with
                    | Some (w :: ws) => (w :: ws, cache)
                    | _ => (config, cache)
                    end = cache) by (destruct cache as [[|? ?]|]; reflexivity).
    destruct (match cache with
              | Some (w :: ws) => (w :: ws, cache)
              | _ => (config, cache)
              end) as [r c1]. simpl in E. subst c1.
    specialize (IH cache).
    destruct (Catalog.calls config cache fs) as [rs c2]. simpl in *.
    rewrite IH. destruct (last_delivered fs); reflexivity.
Qed.

(** X19. Which catalog [get_wash_types] answers with after any history of
    fetches, starting without a cache: the list of the most recent fetch
    that answered 200 with a non-empty list, with missing fields filled in,
    and the local configuration only as long as no fetch has ever
    delivered.  A later failure never brings the configuration back, and
    the answer is non-empty whenever the configuration is. *)
Theorem catalog_after_fetches (config : list WashType.t) (fs : list Fetch)
  (f : Fetch) :
  let cache := snd (Catalog.calls config None fs) in
  fst (Catalog.get_wash_types config cache f)
  = match last_delivered (fs ++ [f]) with
    | Some l => map fill_defaults l
    | None => config
    end
  /\ (config <> [] -> fst (Catalog.get_wash_types config cache f) <> []).
Proof.
  intros cache.
  assert (E : fst (Catalog.get_wash_types config cache f)
              = match last_delivered (fs ++ [f]) with
                | Some l => map fill_defaults l
                | None => config
                end).
  { subst cache. rewrite catalog_cache, catalog_call, last_delivered_snoc.
    destruct (delivered f) as [l|]; [reflexivity|].
    destruct (last_delivered fs) as [l|] eqn:L; [|reflexivity].
    apply last_delivered_nonempty in L. destruct l; [congruence | reflexivity]. }
  split; [exact E|].
  intros Hc. rewrite E.
  destruct (last_delivered (fs ++ [f])) as [l|] eqn:L; [|assumption].
  apply last_delivered_nonempty in L. destruct l; [congruence | discriminate].
Qed.

Lemma catalog_after_fetches_witness :
  fst (Catalog.get_wash_types DEFAULT_WASH_TYPES
         (snd (Catalog.calls DEFAULT_WASH_TYPES None
                 [Responded 200 [RawWashType.mk None (Some "Eco Wash") None None];
                  FetchRaised]))
         (Responded 500 []))
  <> [].
Proof.
  apply (proj2 (catalog_after_fetches DEFAULT_WASH_TYPES
                  [Responded 200 [RawWashType.mk None (Some "Eco Wash") None None];
                   FetchRaised]
                  (Responded 500 []))).
  discriminate.
Defined.

Lemma find_map {A B} (p : B -> bool) (g : A -> B) l :
  find p (map g l) = option_map g (find (fun a => p (g a)) l).
Proof.
  induction l as [|a l IH]; simpl; [reflexivity|].
  destruct (p (g a)); [reflexivity | exact IH].
Qed.

(** X20. A wash type that the server sent without an id gets the id 0, and
    0 counts as "no id" in the drop-off route: asking for that wash type by
    its name (a name with a blank in it, which is how the route recognises
    names) is refused as an invalid wash type and nothing changes, although
    the entry is in the catalog. *)
Theorem wash_type_without_id_refused (cfg : Config) (env : Env) (s : System)
  (raw name : string) (served : list RawWashType.t) (w : RawWashType.t) :
  check_card_already_assigned (data s) (strip raw) = false ->
  available_lockers (data s) <> [] ->
  has_space name = true ->
  find (fun x => String.eqb (catalog_name x) name) served = Some w ->
  RawWashType.id w = None ->
  In (fill_defaults w) (map fill_defaults served)
  /\ drop_off cfg env (map fill_defaults served) s
       (mkRequest (Some raw) (Some (WPStr name)))
     = (s, failure ("Invalid wash type: " ++ name)%string).
Proof.
  intros C A Hsp F Hid. split.
  - apply in_map. eapply find_some, F.
  - unfold drop_off. cbn [req_card_id req_wash_type]. rewrite C.
    destruct (available_lockers (data s)) as [|l rest]; [congruence|].
    unfold resolve_wash_type. rewrite Hsp. cbn [negb].
    rewrite find_map. unfold catalog_name in F. rewrite F. cbn [option_map].
    unfold fill_defaults at 1. cbn [WashType.id]. rewrite Hid. reflexivity.
Qed.

Lemma wash_type_without_id_refused_witness :
  let served := [RawWashType.mk None (Some "Eco Wash") None None] in
  let s := mkSystem (default_data DEFAULT_CONFIG) None [] [] in
  In (fill_defaults (RawWashType.mk None (Some "Eco Wash") None None))
     (map fill_defaults served)
  /\ drop_off DEFAULT_CONFIG (mkEnv "u1" 0 0 (map fill_defaults served) SaveOk true)
       (map fill_defaults served) s
       (mkRequest (Some "A1") (Some (WPStr "Eco Wash")))
     = (s, failure "Invalid wash type: Eco Wash").
Proof.
  apply (wash_type_without_id_refused DEFAULT_CONFIG
           (mkEnv "u1" 0 0
              (map fill_defaults [RawWashType.mk None (Some "Eco Wash") None None])
              SaveOk true)
           (mkSystem (default_data DEFAULT_CONFIG) None [] [])
           "A1" "Eco Wash"
           [RawWashType.mk None (Some "Eco Wash") None None]
           (RawWashType.mk None (Some "Eco Wash") None None));
    try reflexivity.
  discriminate.
Defined.

(** ** Active cards and open transactions *)

Lemma dict_get_none_keys {V} k (d : dict V) :
  dict_get k d = None -> ~ In k (keys d).
Proof.
  intros G. apply dict_get_not_mem in G. unfold dict_mem in G.
  now apply mem_false.
Qed.

Lemma closed_start_ledger s : closed_start s -> ledger (data s).
Proof.
  intros (Ha & Hn & Hc). rewrite Forall_forall in Hc.
  constructor; rewrite ?Ha.
  - assumption.
  - constructor.
  - intros k a [].
  - intros t Ht Hs. elim Hs. now apply Hc.
  - intros t Ht. right. now apply Hc.
Qed.

Lemma assigned_ledger env d card_id locker_id sel :
  ledger d ->
  check_card_already_assigned d (strip card_id) = false ->
  ~ In (uuid4 env) (map Transaction.transaction_id (transactions d)) ->
  ledger (assigned_data env d (strip card_id) locker_id sel).
Proof.
  intros [Hi Hk Ha Ho Hs] C Hfresh.
  destruct (check_card_already_assigned_false _ _ C) as [G _].
  assert (Eact : active_cards (assigned_data env d (strip card_id) locker_id sel)
                 = active_cards d
                     ++ [(strip card_id, Assignment.mk locker_id (uuid4 env))]).
  { unfold assigned_data. cbn [active_cards]. now apply dict_set_absent. }
  set (t0 := LockerTransaction env (strip card_id) locker_id (Some sel)).
  constructor; rewrite ?Eact; cbn [transactions assigned_data]; fold t0.
  - rewrite map_app. simpl.
    apply NoDup_app; [assumption | repeat constructor; simpl; tauto |].
    intros a H1 [<-|[]]. contradiction.
  - unfold keys. rewrite map_app. simpl.
    apply NoDup_app; [assumption | repeat constructor; simpl; tauto |].
    intros a H1 [<-|[]]. now apply (dict_get_none_keys _ _ G).
  - intros k a Hin. apply in_app_or in Hin. destruct Hin as [Hin|[[= <- <-]|[]]].
    + destruct (Ha k a Hin) as (t & Ht & H). exists t. split; [|exact H].
      apply in_or_app. now left.
    + exists t0. split; [apply in_or_app; right; now left|]. cbn. auto.
  - intros t Ht Hst. apply in_app_or in Ht. destruct Ht as [Ht|[<-|[]]].
    + destruct (Ho t Ht Hst) as (a & Hin & E). exists a.
      split; [apply in_or_app; now left | exact E].
    + exists (Assignment.mk locker_id (uuid4 env)).
      split; [apply in_or_app; right; now left | reflexivity].
  - intros t Ht. apply in_app_or in Ht. destruct Ht as [Ht|[<-|[]]].
    + now apply Hs.
    + now left.
Qed.

Lemma released_ledger d k info l now ts' u :
  ledger d ->
  dict_get k (active_cards d) = Some info ->
  complete_first
    (fun t => String.eqb (Transaction.transaction_id t)
                         (Assignment.transaction_id info))
    now (transactions d) = Some (u, ts') ->
  ledger (released_data d k l ts').
Proof.
  intros [Hi Hk Ha Ho Hs] G C1.
  pose proof (complete_first_ids _ _ _ _ _ C1) as Hids.
  apply complete_first_split in C1.
  destruct C1 as (l1 & t & l2 & E & _ & Ht & -> & ->).
  apply String.eqb_eq in Ht.
  pose proof (dict_get_In _ _ _ G) as Hin.
  assert (Hmid : In t (transactions d))
    by (rewrite E; apply in_or_app; right; now left).
  assert (Hcard : Transaction.card_id t = k).
  { destruct (Ha k info Hin) as (t1 & H1 & I1 & C1 & _).
    assert (t1 = t).
    { apply (NoDup_map_inj Transaction.transaction_id (transactions d));
        auto; congruence. }
    now subst. }
  assert (Hout : forall x, In x (l1 ++ l2) ->
                   Transaction.transaction_id x <> Transaction.transaction_id t).
  { intros x Hx Ex. rewrite E, map_app in Hi. simpl in Hi.
    apply NoDup_remove_2 in Hi. apply Hi. rewrite <- map_app, <- Ex.
    now apply in_map. }
  assert (Hkeep : forall x, In x (transactions d) -> x <> t ->
                    In x (l1 ++ mark_completed now t :: l2)).
  { intros x Hx Hne. rewrite E in Hx. apply in_app_or in Hx.
    apply in_or_app. destruct Hx as [Hx|[Hx|Hx]]; [now left | congruence |].
    right. now right. }
  constructor; cbn [active_cards transactions released_data].
  - now rewrite Hids.
  - unfold keys, dict_del. now apply NoDup_map_filter.
  - intros k' a H. apply dict_del_In in H. destruct H as [H Hne].
    destruct (Ha k' a H) as (t1 & H1 & I1 & C1 & R1).
    exists t1. split; [|auto]. apply Hkeep; [assumption|].
    intros ->. congruence.
  - intros x Hx Hst.
    assert (Hx' : In x (l1 ++ l2)).
    { apply in_app_or in Hx. apply in_or_app.
      destruct Hx as [Hx|[<-|Hx]]; [now left | | now right].
      exfalso. apply Hst. reflexivity. }
    assert (Hxd : In x (transactions d)).
    { rewrite E. apply in_app_or in Hx'. apply in_or_app.
      destruct Hx'; [now left | right; now right]. }
    destruct (Ho x Hxd Hst) as (a & Hina & Ea). exists a. split; [|exact Ea].
    apply dict_del_In. split; [assumption|]. intros Ek.
    rewrite Ek in Hina. rewrite (In_dict_get _ _ _ Hk Hina) in G.
    injection G as ->. apply (Hout x Hx'). congruence.
  - intros x Hx. apply in_app_or in Hx. destruct Hx as [Hx|[<-|Hx]].
    + apply Hs. rewrite E. apply in_or_app. now left.
    + now right.
    + apply Hs. rewrite E. apply in_or_app. right. now right.
Qed.

Lemma pickup_ledger cfg env s card_id :
  ledger (data s) ->
  ledger (data (fst (process_pickup cfg env s card_id))).
Proof.
  intros L. pose proof (pickup_outcome cfg env s card_id) as P. cbv zeta in P.
  destruct (resolve_active card_id (active_cards (data s))) as [[k info]|] eqn:R.
  2:{ now rewrite P. }
  apply resolve_active_get in R. destruct R as [G _]. destruct P as [_ P].
  destruct (complete_first _ (now1 env) (transactions (data s)))
    as [[u ts]|] eqn:C1.
  - rewrite P. eapply released_ledger; eassumption.
  - exfalso. apply complete_first_none in C1. rewrite Forall_forall in C1.
    destruct (ledger_active _ L k info (dict_get_In _ _ _ G)) as (t & Ht & E & _).
    specialize (C1 t Ht). simpl in C1. rewrite E, String.eqb_refl in C1.
    discriminate.
Qed.

Lemma assign_ledger env s c l w :
  fresh_uuid env s ->
  ledger (data s) ->
  ledger (data (fst (assign_card_to_locker env s c l w))).
Proof.
  intros Hf L.
  destruct (assign_data_cases env s c l w) as [E|(C & _ & sel & E)]; rewrite E.
  - assumption.
  - now apply assigned_ledger.
Qed.

Lemma drop_off_data_same_env cfg env catalog s req :
  data (fst (drop_off cfg env catalog s req)) = data s
  \/ exists card_id locker_id wash_type_id,
      data (fst (drop_off cfg env catalog s req))
      = data (fst (assign_card_to_locker env s card_id locker_id wash_type_id)).
Proof. apply drop_off_data_cases. Qed.

Lemma reachable_fresh_ledger cfg s : reachable_fresh cfg s -> ledger (data s).
Proof.
  induction 1 as [s Hs|s s' _ IH St].
  - now apply closed_start_ledger.
  - destruct St as [env catalog s req Hf | env s c l w Hf | env s c].
    + destruct (drop_off_data_same_env cfg env catalog s req)
        as [E|(c & l & w & E)]; rewrite E; [assumption|].
      now apply assign_ledger.
    + now apply assign_ledger.
    + now apply pickup_ledger.
Qed.

Lemma same_key_short {A B} (f : A -> B) (c : B) (l : list A) :
  NoDup (map f l) -> (forall x, In x l -> f x = c) -> (List.length l <= 1)%nat.
Proof.
  destruct l as [|x [|y l]]; simpl; intros ND H; try lia.
  exfalso. inversion ND as [|? ? Hn _]; subst. apply Hn. left.
  rewrite (H x), (H y); auto.
Qed.

(** X21. As long as every new transaction gets an id that no transaction
    carries yet, and starting without active cards from a history that is
    closed, a card is a key of [active_cards] exactly when the history holds
    an open (not completed) transaction of that card, and then it holds
    exactly one, the one whose id the assignment records.  No transaction
    ever has the status [processing]. *)
Theorem active_card_has_one_open_transaction (cfg : Config) (s : System) :
  reachable_fresh cfg s ->
  (forall card_id info,
      dict_get card_id (active_cards (data s)) = Some info ->
      exists t,
        open_transactions (data s) card_id = [t]
        /\ Transaction.transaction_id t = Assignment.transaction_id info
        /\ Transaction.locker_id t = Assignment.locker_id info
        /\ Transaction.status t = pending)
  /\ (forall card_id,
      dict_get card_id (active_cards (data s)) = None ->
      open_transactions (data s) card_id = [])
  /\ (forall t, In t (transactions (data s)) ->
                Transaction.status t <> processing).
Proof.
  intros Hr. pose proof (reachable_fresh_ledger cfg s Hr) as L.
  destruct L as [Hi Hk Ha Ho Hs]. repeat split.
  - intros card info G. pose proof (dict_get_In _ _ _ G) as Hin.
    destruct (Ha card info Hin) as (t & Ht & I & C & Lk & P).
    assert (Hopen : In t (open_transactions (data s) card)).
    { unfold open_transactions. apply filter_In. split; [assumption|].
      rewrite C, P, String.eqb_refl. reflexivity. }
    assert (Hlen : (List.length (open_transactions (data s) card) <= 1)%nat).
    { apply (same_key_short Transaction.transaction_id
                            (Assignment.transaction_id info)).
      - unfold open_transactions. now apply NoDup_map_filter.
      - intros x Hx. unfold open_transactions in Hx. apply filter_In in Hx.
        destruct Hx as [Hx Hp]. apply andb_true_iff in Hp.
        destruct Hp as [Hc Hst]. apply String.eqb_eq in Hc.
        destruct (Ho x Hx) as (a & Hina & Ea).
        { intros Hcomp. rewrite Hcomp in Hst. discriminate. }
        rewrite Hc in Hina. rewrite (In_dict_get _ _ _ Hk Hina) in G.
        injection G as ->. now symmetry. }
    exists t. split; [|auto].
    destruct (open_transactions (data s) card) as [|x [|y r]]; simpl in *.
    + contradiction.
    + destruct Hopen as [->|[]]. reflexivity.
    + lia.
  - intros card G. unfold open_transactions.
    destruct (filter _ (transactions (data s))) as [|x r] eqn:F; [reflexivity|].
    exfalso. assert (Hx : In x (filter
             (fun t => String.eqb (Transaction.card_id t) card
                       && negb (is_completed (Transaction.status t)))
             (transactions (data s)))) by (rewrite F; now left).
    apply filter_In in Hx. destruct Hx as [Hx Hp]. apply andb_true_iff in Hp.
    destruct Hp as [Hc Hst]. apply String.eqb_eq in Hc.
    destruct (Ho x Hx) as (a & Hina & _).
    { intros Hcomp. rewrite Hcomp in Hst. discriminate. }
    rewrite Hc in Hina. rewrite (In_dict_get _ _ _ Hk Hina) in G. discriminate.
  - intros t Ht. destruct (Hs t Ht) as [E|E]; rewrite E; discriminate.
Qed.

Lemma active_card_has_one_open_transaction_witness :
  let env := mkEnv "u1" 1000 1001 DEFAULT_WASH_TYPES SaveOk true in
  let s := fst (drop_off DEFAULT_CONFIG env DEFAULT_WASH_TYPES
                  (mkSystem (default_data DEFAULT_CONFIG) None [] [])
                  (mkRequest (Some "A1") (Some (WPInt 1)))) in
  exists t,
    open_transactions (data s) "A1" = [t]
    /\ Transaction.transaction_id t = "u1"
    /\ Transaction.locker_id t = "1"
    /\ Transaction.status t = pending.
Proof.
  refine (proj1 (active_card_has_one_open_transaction DEFAULT_CONFIG
                   (fst (drop_off DEFAULT_CONFIG
                           (mkEnv "u1" 1000 1001 DEFAULT_WASH_TYPES SaveOk true)
                           DEFAULT_WASH_TYPES
                           (mkSystem (default_data DEFAULT_CONFIG) None [] [])
                           (mkRequest (Some "A1") (Some (WPInt 1))))) _)
                "A1" (Assignment.mk "1" "u1") _).
  - apply (reach_fresh_step DEFAULT_CONFIG
             (mkSystem (default_data DEFAULT_CONFIG) None [] [])).
    + apply reach_fresh_start. repeat split; constructor.
    + apply step_fresh_drop_off. intros [].
  - reflexivity.
Defined.

(** ** More on pickup *)

(** X22. A pickup succeeds exactly when some active key equals the
    presented id up to case, whatever the transactions look like; when it
    fails the answer is "Card not associated with any locker" and nothing
    changes.  The answer "Transaction not found" is never given. *)
Theorem pickup_succeeds_iff (cfg : Config) (env : Env) (s : System)
  (card_id : string) :
  let r := process_pickup cfg env s card_id in
  (fst (snd r) = true <->
     exists k, In k (keys (active_cards (data s))) /\ lower k = lower card_id)
  /\ (fst (snd r) = false ->
      r = (s, (false, "Card not associated with any locker")))
  /\ snd (snd r) <> "Transaction not found".
Proof.
  intros r.
  pose proof (pickup_outcome cfg env s card_id) as P. cbv zeta in P. fold r in P.
  destruct (resolve_active card_id (active_cards (data s))) as [[k info]|] eqn:R.
  - destruct P as [Hok _]. split; [|split].
    + split; [|intros _; exact Hok]. intros _.
      apply resolve_active_get in R. destruct R as [G L]. exists k.
      split; [|exact L]. apply dict_get_In in G. unfold keys.
      change k with (fst (k, info)). now apply in_map.
    + congruence.
    + subst r. unfold process_pickup. rewrite R. cbv zeta.
      destruct (complete_first _ (now1 env) (transactions (data s)))
        as [[u ts]|]; [cbn; discriminate|].
      destruct (complete_first _ (now1 env) (transactions (data s)))
        as [[u ts]|]; [cbn; discriminate|].
      apply resolve_active_get in R. destruct R as [G _]. rewrite G.
      cbn. discriminate.
  - rewrite P. cbn [fst snd]. split; [|split].
    + split; [discriminate|]. intros (k & Hk & L). exfalso.
      exact (proj1 (resolve_active_none _ _) R k Hk L).
    + reflexivity.
    + discriminate.
Qed.

Lemma pickup_succeeds_iff_witness :
  let s := mkSystem (mkData [("ab12", Assignment.mk "1" "lost")] [] ["2"])
                    None [] [] in
  fst (snd (process_pickup DEFAULT_CONFIG
              (mkEnv "u" 7 7 DEFAULT_WASH_TYPES SaveOk true) s "AB12")) = true.
Proof.
  apply (proj2 (proj1 (pickup_succeeds_iff DEFAULT_CONFIG
                         (mkEnv "u" 7 7 DEFAULT_WASH_TYPES SaveOk true)
                         (mkSystem (mkData [("ab12", Assignment.mk "1" "lost")] [] ["2"])
                                   None [] [])
                         "AB12"))).
  exists "ab12". split; [now left | reflexivity].
Defined.

(** X23. The counter called [consecutive_errors] is reset by a card read
    only: a poll that finds no card leaves it as it is.  Over any run in
    which no card is read it grows by the number of failed polls, however
    many empty polls lie between them, so errors that are not consecutive
    also add up to a reinitialisation. *)
Theorem errors_accumulate_across_empty_polls (ticks : list Tick) (s : Detector) :
  Forall (fun tk => poll_is_card tk = false) ticks ->
  consecutive_errors (fst (rfid_reader_loop ticks s))
  = consecutive_errors s + Z.of_nat (List.length (filter poll_is_error ticks)).
Proof.
  intros H. revert s. induction H as [|tk ticks Htk _ IH]; intros s.
  - simpl. lia.
  - simpl.
    assert (E : consecutive_errors (fst (rfid_reader_loop_step tk s))
                = consecutive_errors s + (if poll_is_error tk then 1 else 0)).
    { unfold rfid_reader_loop_step, poll_is_card, poll_is_error in *.
      destruct (poll tk); simpl; try discriminate; lia. }
    destruct (rfid_reader_loop_step tk s) as [s1 acts]. simpl in E.
    specialize (IH s1). destruct (rfid_reader_loop ticks s1) as [s2 tr].
    simpl in IH |- *. rewrite IH, E.
    destruct (poll_is_error tk); simpl List.length; lia.
Qed.

Lemma errors_accumulate_across_empty_polls_witness :
  let e := mkTick PollError 0 0 0 ReinitFailed 0 in
  let n := mkTick PollNone 0 0 0 ReinitFailed 0 in
  consecutive_errors (fst (rfid_reader_loop [e; n; n; e; n; e] (detector_start 0)))
  = consecutive_errors (detector_start 0)
    + Z.of_nat (List.length (filter poll_is_error [e; n; n; e; n; e])).
Proof.
  apply (errors_accumulate_across_empty_polls
           [mkTick PollError 0 0 0 ReinitFailed 0;
            mkTick PollNone 0 0 0 ReinitFailed 0;
            mkTick PollNone 0 0 0 ReinitFailed 0;
            mkTick PollError 0 0 0 ReinitFailed 0;
            mkTick PollNone 0 0 0 ReinitFailed 0;
            mkTick PollError 0 0 0 ReinitFailed 0]
           (detector_start 0)).
  repeat constructor.
Defined.

Lemma complete_first_at p now l1 t l2 :
  Forall (fun x => p x = false) l1 -> p t = true ->
  complete_first p now (l1 ++ t :: l2)
  = Some (mark_completed now t, l1 ++ mark_completed now t :: l2).
Proof.
  intros H Ht. induction H as [|x l1 Hx _ IH]; simpl.
  - now rewrite Ht.
  - now rewrite Hx, IH.
Qed.

(** X24. The first fallback of [process_pickup].  When the transaction id
    recorded for the card is not in the history but the card has an open
    transaction, the first such transaction is completed and the locker
    named in that transaction, not the one recorded in the assignment, is
    opened and put in the pool.  Nothing is posted to the server.  When the
    two lockers differ, the locker of the assignment is not returned to the
    pool although its assignment is deleted. *)
Theorem pickup_fallback_uses_transaction_locker (cfg : Config) (env : Env)
  (s : System) (card_id k : string) (info : Assignment.t)
  (l1 : list Transaction.t) (t : Transaction.t) (l2 : list Transaction.t) :
  resolve_active card_id (active_cards (data s)) = Some (k, info) ->
  (forall x, In x (transactions (data s)) ->
             Transaction.transaction_id x <> Assignment.transaction_id info) ->
  transactions (data s) = l1 ++ t :: l2 ->
  Forall (fun x => Transaction.card_id x <> k
                   \/ Transaction.status x = completed) l1 ->
  Transaction.card_id t = k ->
  Transaction.status t <> completed ->
  let r := process_pickup cfg env s card_id in
  let used := Transaction.locker_id t in
  snd r = (true, ("Clothes picked up from locker " ++ used ++ " (fallback)")%string)
  /\ transactions (data (fst r)) = l1 ++ mark_completed (now1 env) t :: l2
  /\ active_cards (data (fst r)) = dict_del k (active_cards (data s))
  /\ available_lockers (data (fst r))
     = append_if_absent used (available_lockers (data s))
  /\ gpio (fst r)
     = gpio s ++ match dict_get used (relay_pins cfg) with
                 | Some pin => unlock_cycle cfg pin
                 | None => []
                 end
  /\ outbox (fst r) = outbox s
  /\ (Assignment.locker_id info <> used ->
      ~ In (Assignment.locker_id info) (available_lockers (data s)) ->
      ~ In (Assignment.locker_id info) (available_lockers (data (fst r)))).
Proof.
  intros R Hid E Hl1 Hc Hst r used.
  assert (N1 : complete_first
                 (fun x => String.eqb (Transaction.transaction_id x)
                                      (Assignment.transaction_id info))
                 (now1 env) (transactions (data s)) = None).
  { apply complete_first_none, Forall_forall. intros x Hx.
    apply String.eqb_neq. now apply Hid. }
  assert (C2 : complete_first
                 (fun x => String.eqb (Transaction.card_id x) k
                           && negb (is_completed (Transaction.status x)))
                 (now1 env) (transactions (data s))
               = Some (mark_completed (now1 env) t,
                       l1 ++ mark_completed (now1 env) t :: l2)).
  { rewrite E. apply complete_first_at.
    - eapply Forall_impl; [|exact Hl1]. intros x [Hx|Hx].
      + apply String.eqb_neq in Hx. now rewrite Hx.
      + rewrite Hx. simpl. apply andb_false_r.
    - rewrite Hc, String.eqb_refl. destruct (Transaction.status t); simpl; congruence. }
  subst r. unfold process_pickup. rewrite R. cbv zeta. rewrite N1, C2.
  cbn [fst snd mark_completed Transaction.locker_id]. fold used.
  split; [reflexivity|].
  unfold release. rewrite save_data_data. unfold with_data.
  cbn [data transactions active_cards available_lockers save_data gpio outbox].
  rewrite unlock_locker_data, unlock_locker_gpio.
  unfold with_transactions, with_data.
  cbn [data transactions active_cards available_lockers gpio].
  repeat split.
  - unfold unlock_locker. destruct (dict_get used (relay_pins cfg)); reflexivity.
  - intros Hne Hnin Hin. apply append_if_absent_In in Hin. tauto.
Qed.

Lemma pickup_fallback_uses_transaction_locker_witness :
  let s := mkSystem
             (mkData [("A1", Assignment.mk "1" "lost")]
                     [Transaction.mk "u7" "A1" "2" None pending 0 None None []]
                     []) None [] [] in
  let r := process_pickup DEFAULT_CONFIG
             (mkEnv "u" 9 9 DEFAULT_WASH_TYPES SaveOk true) s "A1" in
  snd r = (true, "Clothes picked up from locker 2 (fallback)")
  /\ available_lockers (data (fst r)) = ["2"]
  /\ ~ In "1" (available_lockers (data (fst r))).
Proof.
  pose proof (pickup_fallback_uses_transaction_locker DEFAULT_CONFIG
                (mkEnv "u" 9 9 DEFAULT_WASH_TYPES SaveOk true)
                (mkSystem
                   (mkData [("A1", Assignment.mk "1" "lost")]
                           [Transaction.mk "u7" "A1" "2" None pending 0 None None []]
                           []) None [] [])
                "A1" "A1" (Assignment.mk "1" "lost") []
                (Transaction.mk "u7" "A1" "2" None pending 0 None None []) []) as H.
  cbv zeta in H.
  destruct H as (H1 & _ & _ & H4 & _ & _ & H7).
  - reflexivity.
  - intros x [<-|[]]. discriminate.
  - reflexivity.
  - constructor.
  - reflexivity.
  - discriminate.
  - split; [exact H1|]. split; [exact H4|]. apply H7.
    + discriminate.
    + intros [].
Defined.

(** ** Telemetry *)


